(** * AniverseChat: the storage layer ([server/storage.ts])

    A shallow embedding of [MemoryStorage], the in-memory implementation
    of [IStorage] that the module exports as [storage], and proofs of the
    properties its specification states.
    Of [DatabaseStorage], whose statements run in an external database,
    [createMessage] is modelled over tables taken from the
    specification.

    Conventions.
    - A JavaScript [Map<string, V>] is a [gmap string V]: the operations
      used here ([get], [has], [set], [delete]) do not observe the
      iteration order of the map.
    - A [Date] is its [getTime()] value, an integer number of
      milliseconds, in [Z].
    - The clock and the random generator are the environment: every
      function takes the values that [Date.now()], [new Date()] and
      [Math.random().toString(36).substr(2, 9)] yield during the call as
      arguments, in the order the source reads them.
    - [async] functions on this store never suspend between their
      statements, so each is a function from the store to the new store
      and the resolved value.
    - The arrays held in [sessionsByUser] and [messagesBySession] are
      referenced from their map entry only, so mutating them in place
      ([push], [splice]) is the update of that entry.  A session object
      is referenced from [chatSessions] (and from callers that got it
      back); [session.updatedAt = now] is the update of that entry. *)

From Stdlib Require Import Ascii.
From stdpp Require Import gmap strings list fin_maps pretty sorting.

Local Open Scope Z_scope.

(** ** JavaScript array primitives *)

(** [Array.prototype.indexOf] on an array of strings: the first index
    holding [x]; [None] stands for [-1]. *)
Fixpoint indexOf (l : list string) (x : string) : option nat :=
  match l with
  | [] => None
  | y :: l' => if decide (y = x) then Some 0%nat else S <$> indexOf l' x
  end.

(** [arr.splice(index, 1)] for an index within the array. *)
Definition splice1 (index : nat) (l : list string) : list string :=
  delete index l.

(** [Array.prototype.sort(cmp)].  ECMAScript requires the sort to be
    stable, and for a consistent comparator the result is the stable
    sorted permutation, whatever algorithm the host runs
    ([jsSort_unique] below); insertion from the right computes that
    permutation.  [cmp a b ≤ 0] keeps [a] before [b]. *)
Fixpoint sort_insert {A} (cmp : A → A → Z) (x : A) (l : list A) : list A :=
  match l with
  | [] => [x]
  | y :: l' =>
      if decide (cmp x y ≤ 0) then x :: y :: l' else y :: sort_insert cmp x l'
  end.

Definition jsSort {A} (cmp : A → A → Z) (l : list A) : list A :=
  foldr (sort_insert cmp) [] l.

(** [ids.forEach(id => m.delete(id))] *)
Definition deleteAll {V} (ids : list string) (m : gmap string V) : gmap string V :=
  foldl (λ acc id, delete id acc) m ids.

(** The removal of [id] from the list of owner [o], as both delete
    operations write it: [indexOf], then [splice] and [set] when the
    index is not [-1]. *)
Definition unlist (idx : gmap string (list string)) (o id : string)
  : gmap string (list string) :=
  match indexOf (default [] (idx !! o)) id with
  | Some index => <[o := splice1 index (default [] (idx !! o))]> idx
  | None => idx
  end.

(** ** Generated identifiers *)

(** [`${prefix}_${Date.now()}_${suffix}`]: [Date.now()] is an integer, so
    the template prints it in decimal. *)
Definition genId (prefix : string) (dateNow : Z) (suffix : string) : string :=
  prefix +:+ "_" +:+ pretty dateNow +:+ "_" +:+ suffix.

Definition sessionIdOf : Z → string → string := genId "session".
Definition messageIdOf : Z → string → string := genId "msg".

(** Whether the character [c] occurs in [s]. *)
Fixpoint occurs (c : ascii) (s : string) : bool :=
  match s with
  | EmptyString => false
  | String a s' => bool_decide (a = c) || occurs c s'
  end.

(** ** Consistency of a primary map with its secondary index

    [prim] maps identifiers to records, [idx] maps an owner to the list
    of identifiers of its records, [owner] reads the owner off a
    record. *)
Section IndexDefs.
Context {A : Type} (owner : A → string).

(** Every record is listed under its owner. *)
Definition indexed (prim : gmap string A) (idx : gmap string (list string)) : Prop :=
  ∀ id a, prim !! id = Some a → ∃ l, idx !! owner a = Some l ∧ id ∈ l.

(** Every list holds, once each, identifiers of records of that owner. *)
Definition exact (prim : gmap string A) (idx : gmap string (list string)) : Prop :=
  ∀ o l, idx !! o = Some l →
    NoDup l ∧ ∀ id, id ∈ l → ∃ a, prim !! id = Some a ∧ owner a = o.
End IndexDefs.

Set Implicit Arguments.
Set Maximal Implicit Insertion.

Section Storage.

(** The record types come from [@shared/schema], which is taken as
    given: the columns the store does not interpret are one field of
    an arbitrary type per record.  Timestamp columns of an input
    record are overwritten by the store and therefore not part of the
    input here; the inserted session and message carry no [id]. *)
Variables (Profile SessionMeta MessageBody : Type).

Record UpsertUser := mkUpsertUser {
  uu_id : string;
  uu_profile : Profile }.

Record User := mkUser {
  user_id : string;
  user_profile : Profile;
  user_createdAt : Z;
  user_updatedAt : Z }.

Record InsertChatSession := mkInsertChatSession {
  ics_userId : string;
  ics_meta : SessionMeta }.

Record ChatSession := mkChatSession {
  cs_id : string;
  cs_userId : string;
  cs_meta : SessionMeta;
  cs_createdAt : Z;
  cs_updatedAt : Z }.

Record InsertMessage := mkInsertMessage {
  im_sessionId : string;
  im_body : MessageBody }.

Record Message := mkMessage {
  msg_id : string;
  msg_sessionId : string;
  msg_body : MessageBody;
  msg_timestamp : Z }.

(** The five private maps of [class MemoryStorage]. *)
Record MemoryStorage := mkStore {
  users : gmap string User;
  chatSessions : gmap string ChatSession;
  messages : gmap string Message;
  sessionsByUser : gmap string (list string);
  messagesBySession : gmap string (list string) }.

Definition newStorage : MemoryStorage :=
  mkStore ∅ ∅ ∅ ∅ ∅.

(** [session.updatedAt = now] *)
Definition touch (now : Z) (s : ChatSession) : ChatSession :=
  mkChatSession (cs_id s) (cs_userId s) (cs_meta s) (cs_createdAt s) now.

(** ** User operations *)

Definition getUser (st : MemoryStorage) (id : string) : option User :=
  users st !! id.

Definition upsertUser (st : MemoryStorage) (now : Z) (userData : UpsertUser)
  : MemoryStorage * User :=
  let user :=
    mkUser (uu_id userData) (uu_profile userData)
      (match users st !! uu_id userData with
       | Some old => user_createdAt old
       | None => now
       end)
      now in
  (mkStore (<[uu_id userData := user]> (users st)) (chatSessions st)
     (messages st) (sessionsByUser st) (messagesBySession st),
   user).

(** ** Chat operations *)

Definition createChatSession (st : MemoryStorage) (dateNow : Z) (rnd : string)
    (now : Z) (insertSession : InsertChatSession) : MemoryStorage * ChatSession :=
  let id := sessionIdOf dateNow rnd in
  let session :=
    mkChatSession id (ics_userId insertSession) (ics_meta insertSession) now now in
  let userSessions := default [] (sessionsByUser st !! ics_userId insertSession) in
  (mkStore (users st) (<[id := session]> (chatSessions st)) (messages st)
     (<[ics_userId insertSession := userSessions ++ [id]]> (sessionsByUser st))
     (messagesBySession st),
   session).

Definition getChatSession (st : MemoryStorage) (id : string) : option ChatSession :=
  chatSessions st !! id.

Definition getAllChatSessions (st : MemoryStorage) (userId : string)
  : list ChatSession :=
  let sessionIds := default [] (sessionsByUser st !! userId) in
  jsSort (λ a b, cs_updatedAt b - cs_updatedAt a)
    (omap (λ id, chatSessions st !! id) sessionIds).

Definition createMessage (st : MemoryStorage) (dateNow : Z) (rnd : string)
    (now : Z) (insertMessage : InsertMessage) : MemoryStorage * Message :=
  let id := messageIdOf dateNow rnd in
  let message :=
    mkMessage id (im_sessionId insertMessage) (im_body insertMessage) now in
  let sessionMessages :=
    default [] (messagesBySession st !! im_sessionId insertMessage) in
  (mkStore (users st)
     (match chatSessions st !! im_sessionId insertMessage with
      | Some session =>
          <[im_sessionId insertMessage := touch now session]> (chatSessions st)
      | None => chatSessions st
      end)
     (<[id := message]> (messages st))
     (sessionsByUser st)
     (<[im_sessionId insertMessage := sessionMessages ++ [id]]>
        (messagesBySession st)),
   message).

Definition getMessagesBySessionId (st : MemoryStorage) (sessionId : string)
  : list Message :=
  let messageIds := default [] (messagesBySession st !! sessionId) in
  jsSort (λ a b, msg_timestamp a - msg_timestamp b)
    (omap (λ id, messages st !! id) messageIds).

Definition deleteMessage (st : MemoryStorage) (id : string) : MemoryStorage :=
  match messages st !! id with
  | Some message =>
      let sessionMessages :=
        default [] (messagesBySession st !! msg_sessionId message) in
      mkStore (users st) (chatSessions st) (delete id (messages st))
        (sessionsByUser st)
        (match indexOf sessionMessages id with
         | Some index =>
             <[msg_sessionId message := splice1 index sessionMessages]>
               (messagesBySession st)
         | None => messagesBySession st
         end)
  | None => st
  end.

Definition deleteChatSession (st : MemoryStorage) (id : string) : MemoryStorage :=
  match chatSessions st !! id with
  | Some session =>
      let messageIds := default [] (messagesBySession st !! id) in
      let userSessions := default [] (sessionsByUser st !! cs_userId session) in
      mkStore (users st) (delete id (chatSessions st))
        (deleteAll messageIds (messages st))
        (match indexOf userSessions id with
         | Some index =>
             <[cs_userId session := splice1 index userSessions]>
               (sessionsByUser st)
         | None => sessionsByUser st
         end)
        (delete id (messagesBySession st))
  | None => st
  end.

(** ** The interface as a type of calls

    One constructor per method of [IStorage], carrying the arguments
    and the environment's values for the call. *)
Inductive call :=
| GetUser (id : string)
| UpsertUserC (now : Z) (userData : UpsertUser)
| CreateChatSession (dateNow : Z) (rnd : string) (now : Z) (s : InsertChatSession)
| GetChatSession (id : string)
| GetAllChatSessions (userId : string)
| CreateMessage (dateNow : Z) (rnd : string) (now : Z) (m : InsertMessage)
| GetMessagesBySessionId (sessionId : string)
| DeleteMessage (id : string)
| DeleteChatSession (id : string).

Inductive reply :=
| RUser (u : option User)
| RSession (s : option ChatSession)
| RSessions (l : list ChatSession)
| RMessage (m : Message)
| RMessages (l : list Message)
| RVoid.

Definition exec (st : MemoryStorage) (c : call) : MemoryStorage * reply :=
  match c with
  | GetUser id => (st, RUser (getUser st id))
  | UpsertUserC now d => let r := upsertUser st now d in (r.1, RUser (Some r.2))
  | CreateChatSession t rnd now d =>
      let r := createChatSession st t rnd now d in (r.1, RSession (Some r.2))
  | GetChatSession id => (st, RSession (getChatSession st id))
  | GetAllChatSessions u => (st, RSessions (getAllChatSessions st u))
  | CreateMessage t rnd now d =>
      let r := createMessage st t rnd now d in (r.1, RMessage r.2)
  | GetMessagesBySessionId sid => (st, RMessages (getMessagesBySessionId st sid))
  | DeleteMessage id => (deleteMessage st id, RVoid)
  | DeleteChatSession id => (deleteChatSession st id, RVoid)
  end.

Definition step (st : MemoryStorage) (c : call) : MemoryStorage := (exec st c).1.

(** The store after a sequence of calls. *)
Definition run (st : MemoryStorage) (cs : list call) : MemoryStorage :=
  foldl step st cs.

(** A creation is fresh when the identifier it generates is not a key
    of its primary map at that moment. *)
Definition fresh (st : MemoryStorage) (c : call) : bool :=
  match c with
  | CreateChatSession t rnd _ _ =>
      bool_decide (chatSessions st !! sessionIdOf t rnd = None)
  | CreateMessage t rnd _ _ =>
      bool_decide (messages st !! messageIdOf t rnd = None)
  | _ => true
  end.

Fixpoint fresh_run (st : MemoryStorage) (cs : list call) : bool :=
  match cs with
  | [] => true
  | c :: cs' => fresh st c && fresh_run (step st c) cs'
  end.

(** ** [DatabaseStorage.createMessage]

    The durable implementation hands every statement to [db].

    Modelled from the spec: the relational collaborator behind [db]
    ([./db] and the tables of [@shared/schema] are not under src/).  A
    table is a map from primary key to row (spec, section 6:
    [Sessions(id PK, ...)], [Messages(id PK, sessionId FK, ...,
    timestamp)]). *)
Record Database := mkDatabase {
  db_users : gmap string User;
  db_chatSessions : gmap string ChatSession;
  db_messages : gmap string Message }.

(** Modelled from the spec: [db.insert(messages).values(v).returning()].
    The input carries neither [id] nor [timestamp]; the database fills
    both in, and the row it returns is the row it stored.  What it
    chose is the environment's: the arguments [dbId] and [dbTimestamp].
    The insert is rejected, [None], when the primary key is taken or
    when no session has the key the foreign key names. *)
Definition dbInsertMessage (db : Database) (dbId : string) (dbTimestamp : Z)
    (v : InsertMessage) : option (Database * Message) :=
  match db_messages db !! dbId, db_chatSessions db !! im_sessionId v with
  | None, Some _ =>
      let row := mkMessage dbId (im_sessionId v) (im_body v) dbTimestamp in
      Some (mkDatabase (db_users db) (db_chatSessions db)
              (<[dbId := row]> (db_messages db)), row)
  | _, _ => None
  end.

(** Modelled from the spec:
    [db.update(chatSessions).set({ updatedAt }).where(eq(chatSessions.id, id))]:
    the row with that primary key, if there is one, gets the new
    [updatedAt]. *)
Definition dbSetSessionUpdatedAt (db : Database) (id : string) (updatedAt : Z)
  : Database :=
  match db_chatSessions db !! id with
  | Some session =>
      mkDatabase (db_users db) (<[id := touch updatedAt session]> (db_chatSessions db))
        (db_messages db)
  | None => db
  end.

(** [DatabaseStorage.createMessage]: the awaited insert, whose returned
    row is the result, then the update of the session with
    [new Date()], read in this process once the insert has returned:
    the argument [now].  A rejected insert rejects the call. *)
Definition DatabaseStorage_createMessage (db : Database) (dbId : string)
    (dbTimestamp : Z) (now : Z) (insertMessage : InsertMessage)
  : option (Database * Message) :=
  match dbInsertMessage db dbId dbTimestamp insertMessage with
  | Some (db1, message) =>
      Some (dbSetSessionUpdatedAt db1 (im_sessionId insertMessage) now, message)
  | None => None
  end.

(** [DatabaseStorage.getChatSession]: the row selected by primary key. *)
Definition DatabaseStorage_getChatSession (db : Database) (id : string)
  : option ChatSession :=
  db_chatSessions db !! id.

(** ** Creation order

    [created cs id] is the position in the trace [cs] of the last
    call that created a session with identifier [id]. *)
Definition creates (c : call) (id : string) : bool :=
  match c with
  | CreateChatSession t rnd _ _ => bool_decide (sessionIdOf t rnd = id)
  | _ => false
  end.

Fixpoint created_from (n : nat) (cs : list call) (id : string) : option nat :=
  match cs with
  | [] => None
  | c :: cs' =>
      match created_from (S n) cs' id with
      | Some p => Some p
      | None => if creates c id then Some n else None
      end
  end.

Definition created (cs : list call) (id : string) : option nat :=
  created_from 0 cs id.

Definition created_before (cs : list call) (x y : string) : Prop :=
  ∃ p q, created cs x = Some p ∧ created cs y = Some q ∧ (p < q)%nat.

(** Each user's list holds created sessions, oldest first. *)
Definition creation_ordered (cs : list call) (st : MemoryStorage) : Prop :=
  ∀ u l, sessionsByUser st !! u = Some l →
    Forall (λ x, is_Some (created cs x)) l ∧
    StronglySorted (created_before cs) l.

(** ** The clock along a trace

    [clockOf c] is the value [new Date()] yields during the call [c],
    for the calls that read it. *)
Definition clockOf (c : call) : option Z :=
  match c with
  | UpsertUserC now _ => Some now
  | CreateChatSession _ _ now _ => Some now
  | CreateMessage _ _ now _ => Some now
  | _ => None
  end.

(** The readings of [new Date()] along [cs] never go back, starting
    from [t]. *)
Fixpoint clock_monotone (t : Z) (cs : list call) : bool :=
  match cs with
  | [] => true
  | c :: cs' =>
      match clockOf c with
      | Some now => bool_decide (t ≤ now) && clock_monotone now cs'
      | None => clock_monotone t cs'
      end
  end.

(** No stored timestamp is later than [t], no record was updated before
    it was created, and no message is younger than its session's last
    update. *)
Definition timestamps_bounded (t : Z) (st : MemoryStorage) : Prop :=
  (∀ id u, users st !! id = Some u → user_createdAt u ≤ user_updatedAt u ≤ t) ∧
  (∀ id s, chatSessions st !! id = Some s → cs_createdAt s ≤ cs_updatedAt s ≤ t) ∧
  (∀ id m, messages st !! id = Some m →
     msg_timestamp m ≤ t ∧
     ∀ s, chatSessions st !! msg_sessionId m = Some s → msg_timestamp m ≤ cs_updatedAt s).

(** ** Invariants of the store *)

Definition index_consistent (st : MemoryStorage) : Prop :=
  indexed cs_userId (chatSessions st) (sessionsByUser st) ∧
  indexed msg_sessionId (messages st) (messagesBySession st).

Definition index_exact (st : MemoryStorage) : Prop :=
  exact cs_userId (chatSessions st) (sessionsByUser st) ∧
  exact msg_sessionId (messages st) (messagesBySession st).

(** Records are stored under their own identifier. *)
Definition keyed (st : MemoryStorage) : Prop :=
  (∀ id s, chatSessions st !! id = Some s → cs_id s = id) ∧
  (∀ id m, messages st !! id = Some m → msg_id m = id).

Definition store_wf (st : MemoryStorage) : Prop :=
  index_consistent st ∧ index_exact st ∧ keyed st.

End Storage.

Unset Maximal Implicit Insertion.
Unset Implicit Arguments.

Arguments newStorage {Profile SessionMeta MessageBody}.
Arguments GetUser {Profile SessionMeta MessageBody} id.
Arguments UpsertUserC {Profile SessionMeta MessageBody} now userData.
Arguments CreateChatSession {Profile SessionMeta MessageBody} dateNow rnd now s.
Arguments GetChatSession {Profile SessionMeta MessageBody} id.
Arguments GetAllChatSessions {Profile SessionMeta MessageBody} userId.
Arguments CreateMessage {Profile SessionMeta MessageBody} dateNow rnd now m.
Arguments GetMessagesBySessionId {Profile SessionMeta MessageBody} sessionId.
Arguments DeleteMessage {Profile SessionMeta MessageBody} id.
Arguments DeleteChatSession {Profile SessionMeta MessageBody} id.
Arguments RUser {Profile SessionMeta MessageBody} u.
Arguments RSession {Profile SessionMeta MessageBody} s.
Arguments RSessions {Profile SessionMeta MessageBody} l.
Arguments RMessage {Profile SessionMeta MessageBody} m.
Arguments RMessages {Profile SessionMeta MessageBody} l.
Arguments RVoid {Profile SessionMeta MessageBody}.

(** ** Sample runs

    Profile, session metadata and message body are strings here. *)

Abbreviation DemoStore := (MemoryStorage string string string).
Abbreviation DemoCall := (call string string string).

(** User [u1] opens two sessions, the second one later. *)
Definition two_sessions : list DemoCall :=
  [UpsertUserC 900 (mkUpsertUser "u1" "Ann");
   CreateChatSession 1000 "k3x" 1000 (mkInsertChatSession "u1" "first");
   CreateChatSession 2000 "p0q" 2000 (mkInsertChatSession "u1" "second")].

(** User [u1] opens a session and two messages are created in it. *)
Definition two_messages : list DemoCall :=
  [UpsertUserC 900 (mkUpsertUser "u1" "Ann");
   CreateChatSession 1000 "k3x" 1000 (mkInsertChatSession "u1" "first");
   CreateMessage 1100 "aaa" 1100 (mkInsertMessage "session_1000_k3x" "hello");
   CreateMessage 1200 "bbb" 1200 (mkInsertMessage "session_1000_k3x" "world")].

(** A database holding one session of [u1] and no message. *)
Definition one_session_db : Database string string string :=
  mkDatabase ∅ {[ "s1" := mkChatSession "s1" "u1" "first" 900 900 ]} ∅.

(** Two sessions of [u1] with the same [updatedAt]. *)
Definition tied_sessions : list DemoCall :=
  [CreateChatSession 1000 "k3x" 1000 (mkInsertChatSession "u1" "first");
   CreateChatSession 1000 "p0q" 1000 (mkInsertChatSession "u1" "second")].

(** A message is created for a session identifier that names no session. *)
Definition orphan_message : list DemoCall :=
  [CreateMessage 1000 "k3x" 1000 (mkInsertMessage "s1" "hi")].

(** Two sessions are created in the same millisecond with the same
    random suffix, for two users. *)
Definition colliding_sessions : list DemoCall :=
  [CreateChatSession 1000 "k3x" 1000 (mkInsertChatSession "u1" "mine");
   CreateChatSession 1000 "k3x" 1000 (mkInsertChatSession "u2" "yours")].

(** Two messages are created in the same millisecond with the same
    random suffix, for two sessions. *)
Definition colliding_messages : list DemoCall :=
  [CreateMessage 1000 "k3x" 1000 (mkInsertMessage "s1" "mine");
   CreateMessage 1000 "k3x" 1000 (mkInsertMessage "s2" "yours")].

(** The clock is set back between the creation of two messages. *)
Definition clock_set_back : list DemoCall :=
  [CreateChatSession 1000 "k3x" 1000 (mkInsertChatSession "u1" "first");
   CreateMessage 2000 "aaa" 2000 (mkInsertMessage "session_1000_k3x" "hello");
   CreateMessage 1500 "bbb" 1500 (mkInsertMessage "session_1000_k3x" "world")].

(** * Properties *)

(** ** Arrays *)

Lemma indexOf_None l x : indexOf l x = None ↔ x ∉ l.
Proof.
  induction l as [|y l IH]; simpl.
  - split; [intros _; apply not_elem_of_nil | done].
  - case_decide as Hxy.
    + subst. split; [done | intros []; left].
    + rewrite not_elem_of_cons. destruct (indexOf l x); simpl.
      * split; [done | intros [_ Hl]]. by apply IH in Hl.
      * split; [intros _; split; [congruence | by apply IH] | done].
Qed.

Lemma indexOf_Some l x i :
  indexOf l x = Some i →
  ∃ l1 l2, l = l1 ++ x :: l2 ∧ (x ∉ l1) ∧ length l1 = i ∧ splice1 i l = l1 ++ l2.
Proof.
  revert i. induction l as [|y l IH]; intros i; simpl; [done|].
  case_decide as Hxy.
  - intros [= <-]. subst. exists [], l. split_and!; [done | apply not_elem_of_nil | done | done].
  - destruct (indexOf l x) as [j|] eqn:Hj; simpl; [|done].
    intros [= <-]. destruct (IH j eq_refl) as (l1 & l2 & -> & Hx & Hlen & Hsp).
    exists (y :: l1), l2. split_and!; try done.
    + rewrite not_elem_of_cons. split; [congruence | done].
    + simpl. by rewrite Hlen.
    + simpl. f_equal. exact Hsp.
Qed.

Lemma splice1_keeps l x i y :
  indexOf l x = Some i → y ≠ x → y ∈ l → y ∈ splice1 i l.
Proof.
  intros (l1 & l2 & -> & _ & _ & ->)%indexOf_Some Hne.
  rewrite !elem_of_app, elem_of_cons. intros [Hy|[Hy|Hy]]; [by left | done | by right].
Qed.

Lemma splice1_subset l i y : y ∈ splice1 i l → y ∈ l.
Proof. intros Hy. eapply elem_of_sublist; [exact Hy | apply sublist_delete]. Qed.

Lemma splice1_NoDup l i : NoDup l → NoDup (splice1 i l).
Proof. intros Hnd. exact (sublist_NoDup _ _ Hnd (sublist_delete l i)). Qed.

Lemma splice1_removes l x i :
  NoDup l → indexOf l x = Some i → x ∉ splice1 i l.
Proof.
  intros Hnd (l1 & l2 & -> & Hx & _ & ->)%indexOf_Some.
  apply NoDup_app in Hnd as (_ & Hdisj & Hnd2).
  apply NoDup_cons in Hnd2 as [Hx2 _].
  rewrite elem_of_app. intros [Hy|Hy]; [done|].
  apply (Hdisj x); [done | left].
Qed.

Lemma deleteAll_lookup_in {V} ids (m : gmap string V) k :
  k ∈ ids → deleteAll ids m !! k = None.
Proof.
  unfold deleteAll. revert m. induction ids as [|i ids IH]; intros m Hk; simpl.
  - by apply elem_of_nil in Hk.
  - destruct (decide (k ∈ ids)) as [Hin|Hnin]; [by apply IH|].
    apply elem_of_cons in Hk as [->|?]; [|done].
    clear IH. revert m. induction ids as [|j ids IH]; intros m; simpl.
    + apply lookup_delete_eq.
    + apply not_elem_of_cons in Hnin as [Hij Hnin].
      rewrite delete_delete. by apply IH.
Qed.

Lemma deleteAll_lookup_notin {V} ids (m : gmap string V) k :
  k ∉ ids → deleteAll ids m !! k = m !! k.
Proof.
  unfold deleteAll. revert m. induction ids as [|i ids IH]; intros m Hk; simpl; [done|].
  apply not_elem_of_cons in Hk as [Hki Hk].
  rewrite IH by done. by apply lookup_delete_ne.
Qed.

(** ** Sublists *)

Lemma sublist_filter_mono {A} (P : A → Prop) `{!∀ x, Decision (P x)} (l1 l2 : list A) :
  l1 `sublist_of` l2 → filter P l1 `sublist_of` filter P l2.
Proof.
  induction 1 as [|x l1 l2 _ IH|x l1 l2 _ IH]; [constructor|..];
    rewrite ?filter_cons; case_decide; try done; by constructor.
Qed.

Lemma StronglySorted_sublist {A} (R : relation A) (l1 l2 : list A) :
  l1 `sublist_of` l2 → StronglySorted R l2 → StronglySorted R l1.
Proof.
  induction 1 as [|x l1 l2 Hsub IH|x l1 l2 Hsub IH]; [done|..];
    intros [Hl2 Hx]%StronglySorted_inv.
  - constructor; [by apply IH|].
    apply Forall_forall. intros y Hy.
    eapply (proj1 (Forall_forall _ _) Hx), elem_of_sublist; done.
  - by apply IH.
Qed.

Lemma StronglySorted_pair {A} (R : relation A) (l : list A) x y :
  [x; y] `sublist_of` l → StronglySorted R l → R x y.
Proof.
  intros Hsub Hl. apply (StronglySorted_sublist R _ _ Hsub) in Hl.
  apply StronglySorted_inv in Hl as [_ Hx]. by apply Forall_cons in Hx as [? _].
Qed.

Lemma StronglySorted_impl_elem {A} (R R' : relation A) (l : list A) :
  (∀ x y, x ∈ l → y ∈ l → R x y → R' x y) →
  StronglySorted R l → StronglySorted R' l.
Proof.
  intros HR Hl. induction Hl as [|x l Hl IH Hx]; [constructor|].
  constructor.
  - apply IH. intros a b Ha Hb. apply HR; by right.
  - apply Forall_forall. intros y Hy. apply HR; [left | by right |].
    by apply (proj1 (Forall_forall _ _) Hx).
Qed.

Lemma omap_sublist_pair {A B} (f : A → option B) (l : list A) a b :
  [a; b] `sublist_of` omap f l →
  ∃ x y, [x; y] `sublist_of` l ∧ f x = Some a ∧ f y = Some b.
Proof.
  induction l as [|z l IH]; simpl.
  - by intros ?%sublist_nil_r.
  - destruct (f z) as [c|] eqn:Hz.
    + intros [Hsub|(l' & [= <- <-] & Hsub)]%sublist_cons_r.
      * destruct (IH Hsub) as (x & y & Hxy & Hx & Hy).
        exists x, y. split; [by constructor | done].
      * apply singleton_sublist_l, list_elem_of_omap in Hsub as (y & Hy & Hfy).
        exists z, y. split; [|done].
        apply sublist_skip. by apply singleton_sublist_l.
    + intros Hsub. destruct (IH Hsub) as (x & y & Hxy & Hx & Hy).
      exists x, y. split; [by constructor | done].
Qed.

Lemma omap_resolved {A} (f : string → option A) (g : A → string) (l : list string) :
  (∀ x, x ∈ l → ∃ a, f x = Some a ∧ g a = x) → g <$> omap f l = l.
Proof.
  induction l as [|x l IH]; intros Hres; csimpl; [done|].
  destruct (Hres x) as (a & Ha & Hg); [left|].
  rewrite Ha. csimpl. rewrite Hg. f_equal. apply IH.
  intros y Hy. apply Hres. by right.
Qed.

Lemma unlist_sublist idx o id u l :
  unlist idx o id !! u = Some l → ∃ l0, idx !! u = Some l0 ∧ l `sublist_of` l0.
Proof.
  unfold unlist. destruct (idx !! o) as [l0|] eqn:Hl0; simpl; [|by eauto].
  destruct (indexOf l0 id) as [i|]; [|by eauto].
  rewrite lookup_insert. case_decide as Hu; [|by eauto].
  subst u. intros [= <-]. exists l0. split; [done | apply sublist_delete].
Qed.

(** ** Sorting *)

Section Sort.
Context {A : Type} (cmp : A → A → Z) (key : A → Z).
Hypothesis cmp_key : ∀ a b, cmp a b ≤ 0 ↔ key a ≤ key b.

Lemma sort_insert_perm x l : sort_insert cmp x l ≡ₚ x :: l.
Proof.
  induction l as [|y l IH]; simpl; [done|].
  case_decide; [done|]. rewrite IH. apply Permutation_swap.
Qed.

Lemma jsSort_perm l : jsSort cmp l ≡ₚ l.
Proof.
  induction l as [|x l IH]; simpl; [done|].
  unfold jsSort in *. simpl. by rewrite sort_insert_perm, IH.
Qed.

Lemma jsSort_elem_of x l : x ∈ jsSort cmp l ↔ x ∈ l.
Proof. by rewrite jsSort_perm. Qed.

Lemma sort_insert_sorted x l :
  StronglySorted (λ a b, key a ≤ key b) l →
  StronglySorted (λ a b, key a ≤ key b) (sort_insert cmp x l).
Proof.
  induction 1 as [|y l Hl IH Hy]; simpl.
  - repeat constructor.
  - case_decide as Hc.
    + apply cmp_key in Hc. constructor; [by constructor|].
      constructor; [done|]. eapply Forall_impl; [exact Hy|]. simpl. lia.
    + assert (key y ≤ key x) by (rewrite cmp_key in Hc; lia).
      constructor; [done|].
      rewrite sort_insert_perm. by constructor.
Qed.

Lemma jsSort_sorted l : StronglySorted (λ a b, key a ≤ key b) (jsSort cmp l).
Proof.
  induction l as [|x l IH]; [constructor|].
  unfold jsSort in *. simpl. by apply sort_insert_sorted.
Qed.

(** Stability: elements with the same key keep their relative order. *)
Lemma sort_insert_stable t x l :
  filter (λ a, key a = t) (sort_insert cmp x l) = filter (λ a, key a = t) (x :: l).
Proof.
  induction l as [|y l IH]; simpl; [done|].
  case_decide as Hc; [done|].
  assert (key y < key x) by (rewrite cmp_key in Hc; lia).
  rewrite (filter_cons _ y), IH, !filter_cons.
  repeat case_decide; try done; lia.
Qed.

Lemma jsSort_stable t l :
  filter (λ a, key a = t) (jsSort cmp l) = filter (λ a, key a = t) l.
Proof.
  induction l as [|x l IH]; [done|].
  unfold jsSort in *. simpl. rewrite sort_insert_stable, !filter_cons.
  by rewrite IH.
Qed.

(** The three properties above determine the result: a sorted list that
    keeps, for every key, the elements of that key in their order in
    [l] is the list [jsSort] returns. *)
Lemma stable_sorted_unique l1 l2 :
  StronglySorted (λ a b, key a ≤ key b) l1 →
  StronglySorted (λ a b, key a ≤ key b) l2 →
  (∀ t, filter (λ a, key a = t) l1 = filter (λ a, key a = t) l2) →
  l1 = l2.
Proof.
  revert l2. induction l1 as [|x l1 IH]; intros [|y l2] H1 H2 Hf; [done|..].
  - specialize (Hf (key y)). by rewrite filter_nil, filter_cons_True in Hf.
  - specialize (Hf (key x)). by rewrite filter_nil, filter_cons_True in Hf.
  - apply StronglySorted_inv in H1 as [H1 Hx]. apply StronglySorted_inv in H2 as [H2 Hy].
    assert (key x = key y) as Hk.
    { destruct (Z.lt_trichotomy (key x) (key y)) as [Hlt|[?|Hgt]]; [|done|].
      - pose proof (Hf (key x)) as Hfx.
        rewrite filter_cons_True, (filter_cons_False _ y) in Hfx by (done || lia).
        assert (x ∈ filter (λ a, key a = key x) l2) as [_ Hin]%list_elem_of_filter
          by (rewrite <-Hfx; left).
        pose proof (proj1 (Forall_forall _ _) Hy _ Hin). simpl in *. lia.
      - pose proof (Hf (key y)) as Hfy.
        rewrite (filter_cons_True _ y), (filter_cons_False _ x) in Hfy by (done || lia).
        assert (y ∈ filter (λ a, key a = key y) l1) as [_ Hin]%list_elem_of_filter
          by (rewrite Hfy; left).
        pose proof (proj1 (Forall_forall _ _) Hx _ Hin). simpl in *. lia. }
    pose proof (Hf (key x)) as Hfx.
    rewrite !filter_cons_True in Hfx by done. injection Hfx as -> _.
    f_equal. apply IH; [done..|]. intros t. specialize (Hf t).
    rewrite !filter_cons in Hf. case_decide; [by injection Hf | done].
Qed.

Lemma jsSort_unique l l' :
  StronglySorted (λ a b, key a ≤ key b) l' →
  (∀ t, filter (λ a, key a = t) l' = filter (λ a, key a = t) l) →
  l' = jsSort cmp l.
Proof.
  intros Hs Hf. apply stable_sorted_unique; [done | apply jsSort_sorted |].
  intros t. by rewrite jsSort_stable.
Qed.
End Sort.

(** ** Generated identifiers *)

Lemma pretty_N_char_no_underscore x : pretty_N_char x ≠ "_"%char.
Proof. unfold pretty_N_char. by repeat case_match. Qed.

Lemma pretty_N_go_no_underscore x s :
  occurs "_" s = false → occurs "_" (pretty_N_go x s) = false.
Proof.
  revert s. induction (N.lt_wf_0 x) as [x _ IH]; intros s Hs.
  destruct (decide (x = 0)%N) as [->|Hx].
  - by rewrite pretty_N_go_0.
  - rewrite pretty_N_go_step by lia. apply IH.
    + apply N.div_lt; lia.
    + simpl. rewrite Hs, orb_false_r.
      apply bool_decide_eq_false, pretty_N_char_no_underscore.
Qed.

Lemma pretty_N_no_underscore (x : N) : occurs "_" (pretty x) = false.
Proof.
  unfold pretty, pretty_N. case_decide; [done|].
  by apply pretty_N_go_no_underscore.
Qed.

Lemma pretty_Z_no_underscore (z : Z) : occurs "_" (pretty z) = false.
Proof.
  destruct z as [|p|p]; [done|..].
  - apply pretty_N_no_underscore.
  - change (pretty (Z.neg p)) with ("-" +:+ pretty (N.pos p)).
    simpl. apply pretty_N_no_underscore.
Qed.

(** A string without underscore, followed by an underscore, is a prefix
    that determines both parts. *)
Lemma split_at_underscore a a' r r' :
  occurs "_" a = false → occurs "_" a' = false →
  a +:+ "_" +:+ r = a' +:+ "_" +:+ r' → a = a' ∧ r = r'.
Proof.
  revert a'. induction a as [|c a IH]; intros [|c' a']; simpl.
  - intros _ _ Heq. by simplify_eq/=.
  - intros _ [Hc' _]%orb_false_elim [= Hc _].
    apply bool_decide_eq_false in Hc'. congruence.
  - intros [Hc _]%orb_false_elim _ [= Hc' _].
    apply bool_decide_eq_false in Hc. congruence.
  - intros [_ Ha]%orb_false_elim [_ Ha']%orb_false_elim [= -> Heq].
    by destruct (IH a' Ha Ha' Heq) as [<- <-].
Qed.

Lemma genId_timestamp_suffix prefix t r t' r' :
  genId prefix t r = genId prefix t' r' → t = t' ∧ r = r'.
Proof.
  unfold genId. intros Heq.
  assert (pretty t +:+ "_" +:+ r = pretty t' +:+ "_" +:+ r') as Heq'.
  { induction prefix as [|c p IH]; simpl in Heq; [by injection Heq|].
    injection Heq as Heq. by apply IH. }
  apply split_at_underscore in Heq' as [Ht ->];
    [|apply pretty_Z_no_underscore..].
  split; [|done]. by apply (inj pretty).
Qed.

(** ** Primary map and secondary index *)

Section Index.
Context {A : Type} (owner : A → string).
Implicit Types (prim : gmap string A) (idx : gmap string (list string)).

Lemma indexed_empty : indexed owner ∅ ∅.
Proof. intros id a Hl. by rewrite lookup_empty in Hl. Qed.

Lemma exact_empty : exact owner ∅ ∅.
Proof. intros o l Hl. by rewrite lookup_empty in Hl. Qed.

(** [prim.set(id, a)] followed by the [push] of [id] on the owner's list. *)
Lemma indexed_insert_push prim idx id a :
  indexed owner prim idx →
  indexed owner (<[id := a]> prim)
    (<[owner a := default [] (idx !! owner a) ++ [id]]> idx).
Proof.
  intros Hix id' a'. rewrite lookup_insert. case_decide as Hid.
  - intros [= <-]. subst id'. rewrite lookup_insert_eq.
    eexists; split; [done|]. apply elem_of_app. right. left.
  - intros (l & Hl & Hin)%Hix.
    destruct (decide (owner a = owner a')) as [Heq|Hne].
    + rewrite Heq, lookup_insert_eq. eexists; split; [done|].
      rewrite Hl. simpl. apply elem_of_app. by left.
    + rewrite lookup_insert_ne by done. eauto.
Qed.

Lemma exact_insert_push prim idx id a :
  prim !! id = None →
  exact owner prim idx →
  exact owner (<[id := a]> prim)
    (<[owner a := default [] (idx !! owner a) ++ [id]]> idx).
Proof.
  intros Hfresh Hex o l. rewrite lookup_insert. case_decide as Ho.
  - intros [= <-]. subst o.
    destruct (idx !! owner a) as [l0|] eqn:Hl0; simpl.
    + destruct (Hex _ _ Hl0) as [Hnd Hres]. split.
      * apply NoDup_app. split_and!; [done | | apply NoDup_singleton].
        intros x Hx ->%list_elem_of_singleton.
        destruct (Hres _ Hx) as (a' & Ha' & _). congruence.
      * intros id' [Hin| ->%list_elem_of_singleton]%elem_of_app.
        -- destruct (Hres _ Hin) as (a' & Ha' & Ho).
           exists a'. split; [|done]. rewrite lookup_insert_ne; [done|congruence].
        -- exists a. by rewrite lookup_insert_eq.
    + split; [apply NoDup_singleton|].
      intros id' ->%list_elem_of_singleton. exists a. by rewrite lookup_insert_eq.
  - intros Hl. destruct (Hex _ _ Hl) as [Hnd Hres]. split; [done|].
    intros id' Hin. destruct (Hres _ Hin) as (a' & Ha' & Ho').
    exists a'. split; [|done]. rewrite lookup_insert_ne; [done|congruence].
Qed.

(** Replacing a record by one of the same owner. *)
Lemma indexed_update prim idx id a a' :
  prim !! id = Some a → owner a' = owner a →
  indexed owner prim idx → indexed owner (<[id := a']> prim) idx.
Proof.
  intros Ha Ho Hix id0 a0. rewrite lookup_insert. case_decide.
  - intros [= <-]. subst id0. rewrite Ho. eauto.
  - apply Hix.
Qed.

Lemma exact_update prim idx id a a' :
  prim !! id = Some a → owner a' = owner a →
  exact owner prim idx → exact owner (<[id := a']> prim) idx.
Proof.
  intros Ha Ho Hex o l Hl. destruct (Hex _ _ Hl) as [Hnd Hres]. split; [done|].
  intros id0 Hin. destruct (Hres _ Hin) as (a0 & Ha0 & Ho0).
  rewrite lookup_insert. case_decide; [|eauto].
  subst id0. exists a'. split; [done|]. congruence.
Qed.

Lemma unlist_lookup_ne idx o id o' : o ≠ o' → unlist idx o id !! o' = idx !! o'.
Proof.
  intros Hne. unfold unlist. destruct (indexOf _ _); [|done].
  by rewrite lookup_insert_ne.
Qed.

Lemma unlist_lookup idx o id l :
  unlist idx o id !! o = Some l →
  ∃ l0, idx !! o = Some l0 ∧
    (∀ x, x ∈ l → x ∈ l0) ∧ (∀ x, x ∈ l0 → x ≠ id → x ∈ l) ∧
    (NoDup l0 → NoDup l ∧ id ∉ l).
Proof.
  unfold unlist. destruct (idx !! o) as [l0|] eqn:Hl0; simpl.
  - destruct (indexOf l0 id) as [i|] eqn:Hi.
    + rewrite lookup_insert_eq. intros [= <-]. exists l0. split_and!; [done|..].
      * intros x. apply splice1_subset.
      * intros x Hx Hne. by eapply splice1_keeps.
      * intros Hnd. split; [by apply splice1_NoDup | by eapply splice1_removes].
    + rewrite Hl0. intros [= <-]. exists l0. split_and!; try done.
      intros Hnd. split; [done | by apply indexOf_None].
  - by rewrite Hl0.
Qed.

Lemma indexed_delete_unlist prim idx id a :
  prim !! id = Some a →
  indexed owner prim idx →
  indexed owner (delete id prim) (unlist idx (owner a) id).
Proof.
  intros Ha Hix id' a'. rewrite lookup_delete. case_decide as Hid; [done|].
  intros (l & Hl & Hin)%Hix.
  destruct (decide (owner a = owner a')) as [Heq|Hne].
  - rewrite <-Heq in *. unfold unlist. rewrite Hl. simpl.
    destruct (indexOf l id) as [i|] eqn:Hi; [|eauto].
    rewrite lookup_insert_eq. eexists; split; [done|].
    eapply splice1_keeps; [done| congruence |done].
  - rewrite unlist_lookup_ne by done. eauto.
Qed.

Lemma exact_delete_unlist prim idx id a :
  prim !! id = Some a →
  exact owner prim idx →
  exact owner (delete id prim) (unlist idx (owner a) id).
Proof.
  intros Ha Hex o l Hl.
  destruct (decide (owner a = o)) as [<-|Hne].
  - apply unlist_lookup in Hl as (l0 & Hl0 & Hsub & _ & Hnd).
    destruct (Hex _ _ Hl0) as [Hnd0 Hres]. destruct (Hnd Hnd0) as [Hndl Hid].
    split; [done|]. intros id' Hin.
    destruct (Hres _ (Hsub _ Hin)) as (a' & Ha' & Ho').
    exists a'. split; [|done]. rewrite lookup_delete_ne; [done|congruence].
  - rewrite unlist_lookup_ne in Hl by done.
    destruct (Hex _ _ Hl) as [Hnd Hres]. split; [done|].
    intros id' Hin. destruct (Hres _ Hin) as (a' & Ha' & Ho').
    exists a'. split; [|done]. rewrite lookup_delete_ne; [done|congruence].
Qed.

(** The cascade of [deleteChatSession]: every identifier listed under
    [o] leaves the primary map and the list of [o] is dropped. *)
Lemma indexed_cascade prim idx o :
  indexed owner prim idx →
  indexed owner (deleteAll (default [] (idx !! o)) prim) (delete o idx).
Proof.
  intros Hix id a Ha.
  destruct (decide (id ∈ default [] (idx !! o))) as [Hin|Hnin].
  { by rewrite deleteAll_lookup_in in Ha. }
  rewrite deleteAll_lookup_notin in Ha by done.
  destruct (Hix _ _ Ha) as (l & Hl & Hid).
  destruct (decide (o = owner a)) as [->|Hne].
  - rewrite Hl in Hnin. done.
  - rewrite lookup_delete_ne by done. eauto.
Qed.

Lemma cascade_no_orphans prim idx o id a :
  indexed owner prim idx →
  deleteAll (default [] (idx !! o)) prim !! id = Some a → owner a ≠ o.
Proof.
  intros Hix Ha <-.
  destruct (decide (id ∈ default [] (idx !! owner a))) as [Hin|Hnin].
  { by rewrite deleteAll_lookup_in in Ha. }
  rewrite deleteAll_lookup_notin in Ha by done.
  destruct (Hix _ _ Ha) as (l & Hl & Hid). by rewrite Hl in Hnin.
Qed.

Lemma exact_cascade prim idx o :
  exact owner prim idx →
  exact owner (deleteAll (default [] (idx !! o)) prim) (delete o idx).
Proof.
  intros Hex o' l. rewrite lookup_delete. case_decide as Ho; [done|].
  intros Hl. destruct (Hex _ _ Hl) as [Hnd Hres]. split; [done|].
  intros id Hin. destruct (Hres _ Hin) as (a & Ha & Hoa).
  exists a. split; [|done]. rewrite deleteAll_lookup_notin; [done|].
  intros Hin'. destruct (idx !! o) as [l0|] eqn:Hl0; simpl in Hin'.
  - destruct (Hex _ _ Hl0) as [_ Hres0].
    destruct (Hres0 _ Hin') as (a0 & Ha0 & Hoa0). congruence.
  - by apply elem_of_nil in Hin'.
Qed.

(** The records resolved from the list of [o] are the records of [o]. *)
Lemma listing_exact prim idx o x :
  indexed owner prim idx → exact owner prim idx →
  x ∈ omap (λ id, prim !! id) (default [] (idx !! o)) ↔
  ∃ id, prim !! id = Some x ∧ owner x = o.
Proof.
  intros Hix Hex. rewrite list_elem_of_omap. split.
  - intros (id & Hin & Hx). exists id. split; [done|].
    destruct (idx !! o) as [l|] eqn:Hl; simpl in Hin; [|by apply elem_of_nil in Hin].
    destruct (Hex _ _ Hl) as [_ Hres].
    destruct (Hres _ Hin) as (a & Ha & Ho). congruence.
  - intros (id & Hx & <-). exists id. split; [|done].
    destruct (Hix _ _ Hx) as (l & Hl & Hin). by rewrite Hl.
Qed.

Lemma listing_keys prim idx o (key : A → string) :
  exact owner prim idx → (∀ id a, prim !! id = Some a → key a = id) →
  key <$> omap (λ id, prim !! id) (default [] (idx !! o)) = default [] (idx !! o) ∧
  NoDup (default [] (idx !! o)).
Proof.
  intros Hex Hkey. destruct (idx !! o) as [l|] eqn:Hl; simpl;
    [|split; [done | constructor]].
  destruct (Hex _ _ Hl) as [Hnd Hres]. split; [|done].
  apply omap_resolved. intros x Hx.
  destruct (Hres _ Hx) as (a & Ha & _). exists a. split; [done | by eapply Hkey].
Qed.
End Index.

(** ** The store *)

Section Properties.
Context {Profile SessionMeta MessageBody : Type}.
Local Abbreviation Store := (MemoryStorage Profile SessionMeta MessageBody).
Local Abbreviation Call := (call Profile SessionMeta MessageBody).
Implicit Types (st : Store) (c : Call) (cs : list Call).

Lemma run_snoc st cs c : run st (cs ++ [c]) = step (run st cs) c.
Proof. unfold run. by rewrite foldl_app. Qed.

Lemma run_app st cs1 cs2 : run st (cs1 ++ cs2) = run (run st cs1) cs2.
Proof. unfold run. by rewrite foldl_app. Qed.

Lemma deleteMessage_unlist st id m :
  messages st !! id = Some m →
  deleteMessage st id =
    mkStore (users st) (chatSessions st) (delete id (messages st))
      (sessionsByUser st) (unlist (messagesBySession st) (msg_sessionId m) id).
Proof. intros Hm. unfold deleteMessage. by rewrite Hm. Qed.

Lemma deleteChatSession_unlist st id s :
  chatSessions st !! id = Some s →
  deleteChatSession st id =
    mkStore (users st) (delete id (chatSessions st))
      (deleteAll (default [] (messagesBySession st !! id)) (messages st))
      (unlist (sessionsByUser st) (cs_userId s) id)
      (delete id (messagesBySession st)).
Proof. intros Hs. unfold deleteChatSession. by rewrite Hs. Qed.

(** *** [index_consistent] is kept by every call *)

Lemma newStorage_wf : store_wf (newStorage : Store).
Proof.
  split_and!; [split; apply indexed_empty | split; apply exact_empty |].
  split; intros ?? Hl; simpl in Hl; by rewrite lookup_empty in Hl.
Qed.

Lemma step_index_consistent st c :
  index_consistent st → index_consistent (step st c).
Proof.
  intros [Hs Hm]. destruct c as [| | t r now d | | | t r now d | | id | id];
    try done; unfold step; simpl.
  - split; simpl; [|done].
    apply (indexed_insert_push cs_userId _ _ _
             (mkChatSession _ (ics_userId d) (ics_meta d) now now) Hs).
  - split; simpl.
    + destruct (chatSessions st !! im_sessionId d) as [s|] eqn:Hsd; [|done].
      by eapply indexed_update.
    + apply (indexed_insert_push msg_sessionId _ _ _
               (mkMessage _ (im_sessionId d) (im_body d) now) Hm).
  - destruct (messages st !! id) as [m|] eqn:Hmid.
    + rewrite (deleteMessage_unlist _ _ _ Hmid). split; simpl; [done|].
      by apply indexed_delete_unlist.
    + unfold deleteMessage. by rewrite Hmid.
  - destruct (chatSessions st !! id) as [s|] eqn:Hsid.
    + rewrite (deleteChatSession_unlist _ _ _ Hsid). split; simpl.
      * by apply indexed_delete_unlist.
      * by apply indexed_cascade.
    + unfold deleteChatSession. by rewrite Hsid.
Qed.

Lemma run_index_consistent st cs :
  index_consistent st → index_consistent (run st cs).
Proof.
  revert st. induction cs as [|c cs IH]; intros st Hst; [done|].
  simpl. by apply IH, step_index_consistent.
Qed.

(** *** [store_wf] is kept by every call that generates a fresh identifier *)

Lemma step_keyed st c : keyed st → keyed (step st c).
Proof.
  intros [Hs Hm]. destruct c as [| | t r now d | | | t r now d | | id | id];
    try done; unfold step; simpl.
  - split; simpl; [|done]. intros id s. rewrite lookup_insert.
    case_decide; [by intros [= <-] | apply Hs].
  - split; simpl.
    + destruct (chatSessions st !! im_sessionId d) as [s0|] eqn:Hsd; [|done].
      intros id s. rewrite lookup_insert.
      case_decide; [intros [= <-]; subst; simpl; by apply Hs | apply Hs].
    + intros id m. rewrite lookup_insert.
      case_decide; [by intros [= <-] | apply Hm].
  - unfold deleteMessage. destruct (messages st !! id) as [m|] eqn:Hmid; [|done].
    split; simpl; [done|]. intros id' m'. rewrite lookup_delete.
    case_decide; [done | apply Hm].
  - unfold deleteChatSession.
    destruct (chatSessions st !! id) as [s|] eqn:Hsid; [|done].
    split; simpl.
    + intros id' s'. rewrite lookup_delete. case_decide; [done | apply Hs].
    + intros id' m'. intros Hl. apply Hm.
      destruct (decide (id' ∈ default [] (messagesBySession st !! id))).
      * by rewrite deleteAll_lookup_in in Hl.
      * by rewrite deleteAll_lookup_notin in Hl.
Qed.

Lemma step_index_exact st c :
  fresh st c = true → index_exact st → index_exact (step st c).
Proof.
  intros Hf [Hs Hm]. destruct c as [| | t r now d | | | t r now d | | id | id];
    try done; unfold step; simpl in *.
  - apply bool_decide_eq_true in Hf. split; simpl; [|done].
    by apply (exact_insert_push cs_userId _ _ _
             (mkChatSession _ (ics_userId d) (ics_meta d) now now)).
  - apply bool_decide_eq_true in Hf. split; simpl.
    + destruct (chatSessions st !! im_sessionId d) as [s|] eqn:Hsd; [|done].
      by eapply exact_update.
    + by apply (exact_insert_push msg_sessionId _ _ _
               (mkMessage _ (im_sessionId d) (im_body d) now)).
  - destruct (messages st !! id) as [m|] eqn:Hmid.
    + rewrite (deleteMessage_unlist _ _ _ Hmid). split; simpl; [done|].
      by apply exact_delete_unlist.
    + unfold deleteMessage. by rewrite Hmid.
  - destruct (chatSessions st !! id) as [s|] eqn:Hsid.
    + rewrite (deleteChatSession_unlist _ _ _ Hsid). split; simpl.
      * by apply exact_delete_unlist.
      * by apply exact_cascade.
    + unfold deleteChatSession. by rewrite Hsid.
Qed.

Lemma step_store_wf st c :
  fresh st c = true → store_wf st → store_wf (step st c).
Proof.
  intros Hf (Hc & He & Hk). split_and!.
  - by apply step_index_consistent.
  - by apply step_index_exact.
  - by apply step_keyed.
Qed.

Lemma run_store_wf st cs :
  fresh_run st cs = true → store_wf st → store_wf (run st cs).
Proof.
  revert st. induction cs as [|c cs IH]; intros st Hf Hst; [done|].
  simpl in Hf. apply andb_true_iff in Hf as [Hc Hcs].
  simpl. by apply IH, step_store_wf.
Qed.

Lemma run_keyed st cs : keyed st → keyed (run st cs).
Proof.
  revert st. induction cs as [|c cs IH]; intros st Hst; [done|].
  simpl. by apply IH, step_keyed.
Qed.

(** *** Users are never removed and keep their creation time *)

Lemma step_user_createdAt st c id u :
  users st !! id = Some u →
  ∃ u', users (step st c) !! id = Some u' ∧ user_createdAt u' = user_createdAt u.
Proof.
  intros Hu. destruct c as [| now d | t r now d | | | t r now d | | k | k];
    unfold step; simpl; eauto.
  - rewrite lookup_insert. case_decide as Hid; [|eauto].
    subst id. rewrite Hu. eauto.
  - unfold deleteMessage. destruct (messages st !! k); simpl; eauto.
  - unfold deleteChatSession. destruct (chatSessions st !! k); simpl; eauto.
Qed.

Lemma run_user_createdAt st cs id u :
  users st !! id = Some u →
  ∃ u', users (run st cs) !! id = Some u' ∧ user_createdAt u' = user_createdAt u.
Proof.
  revert st u. induction cs as [|c cs IH]; intros st u Hu; [eauto|].
  destruct (step_user_createdAt st c id u Hu) as (u1 & Hu1 & Hc1).
  destruct (IH _ _ Hu1) as (u2 & Hu2 & Hc2).
  exists u2. split; [done | congruence].
Qed.

(** C2. [upsertUser] stores and returns the input's fields with
    [updatedAt] set to the current time; [createdAt] is the current
    time when the identifier is new and the stored record's otherwise.
    No other user and no other map changes.  After the first insertion
    of an identifier at time [now], every later upsert of it, after any
    calls, returns [createdAt = now].  Upserting the same input again
    changes [updatedAt] only. *)
Theorem upsertUser_spec st now d :
  let r := upsertUser st now d in
  getUser r.1 (uu_id d) = Some r.2 ∧
  user_id r.2 = uu_id d ∧ user_profile r.2 = uu_profile d ∧
  user_updatedAt r.2 = now ∧
  user_createdAt r.2 =
    match getUser st (uu_id d) with Some old => user_createdAt old | None => now end ∧
  (∀ id, id ≠ uu_id d → getUser r.1 id = getUser st id) ∧
  (chatSessions r.1 = chatSessions st ∧ messages r.1 = messages st ∧
   sessionsByUser r.1 = sessionsByUser st ∧
   messagesBySession r.1 = messagesBySession st) ∧
  (getUser st (uu_id d) = None →
   ∀ cs now' d', uu_id d' = uu_id d →
     user_createdAt (upsertUser (run r.1 cs) now' d').2 = now) ∧
  (∀ now2, let r2 := upsertUser r.1 now2 d in
     r2.2 = mkUser (user_id r.2) (user_profile r.2) (user_createdAt r.2) now2 ∧
     r2.1 = mkStore (<[uu_id d := r2.2]> (users r.1)) (chatSessions r.1)
              (messages r.1) (sessionsByUser r.1) (messagesBySession r.1)).
Proof.
  unfold getUser. simpl. split_and!; try done.
  - apply lookup_insert_eq.
  - intros id Hid. by apply lookup_insert_ne.
  - intros Hnew cs now' d' Hd'. rewrite Hnew.
    set (st1 := mkStore _ _ _ _ _).
    destruct (run_user_createdAt st1 cs (uu_id d)
                (mkUser (uu_id d) (uu_profile d) now now)) as (u' & Hu' & Hc').
    { apply lookup_insert_eq. }
    rewrite Hd', Hu'. done.
  - intros now2. by rewrite lookup_insert_eq.
Qed.

(** C3, for [MemoryStorage].  Creating a message in an existing
    session stamps the message with the current time and sets the
    session's [updatedAt] to the same time, leaving the session's other
    fields as they were; after a second message in that session the
    session's [updatedAt] is the second message's timestamp. *)
Theorem createMessage_refreshes_session st dateNow rnd now d s :
  chatSessions st !! im_sessionId d = Some s →
  let r := createMessage st dateNow rnd now d in
  msg_timestamp r.2 = now ∧
  getChatSession r.1 (im_sessionId d) = Some (touch now s) ∧
  cs_updatedAt <$> getChatSession r.1 (im_sessionId d) = Some (msg_timestamp r.2) ∧
  (∀ dateNow2 rnd2 now2 d2, im_sessionId d2 = im_sessionId d →
     let r2 := createMessage r.1 dateNow2 rnd2 now2 d2 in
     cs_updatedAt <$> getChatSession r2.1 (im_sessionId d)
       = Some (msg_timestamp r2.2)).
Proof.
  intros Hs. unfold getChatSession. simpl. rewrite Hs.
  split_and!; [done | apply lookup_insert_eq | by rewrite lookup_insert_eq |].
  intros t2 r2 now2 d2 ->. by rewrite !lookup_insert_eq.
Qed.

(** [DatabaseStorage.createMessage], when the insert is accepted,
    returns the row with the timestamp the database chose and leaves
    the session with the [updatedAt] this process read afterwards. *)
Lemma DatabaseStorage_createMessage_accepted
    (db db' : Database Profile SessionMeta MessageBody) dbId dbTimestamp now d m :
  DatabaseStorage_createMessage db dbId dbTimestamp now d = Some (db', m) →
  msg_timestamp m = dbTimestamp ∧
  ∃ s, db_chatSessions db !! im_sessionId d = Some s ∧
       DatabaseStorage_getChatSession db' (im_sessionId d) = Some (touch now s).
Proof.
  unfold DatabaseStorage_createMessage, dbInsertMessage.
  destruct (db_messages db !! dbId); [done|].
  destruct (db_chatSessions db !! im_sessionId d) as [s|] eqn:Hs; [|done].
  intros [= <- <-]. split; [done|]. exists s. split; [done|].
  unfold DatabaseStorage_getChatSession, dbSetSessionUpdatedAt. simpl.
  rewrite Hs. simpl. apply lookup_insert_eq.
Qed.

(** C7. In every store reached from the empty store by a sequence of
    calls, a session in the session map is stored under its own
    identifier and that identifier is in the list of its owning user,
    and likewise a message and the list of its owning session. *)
Theorem reachable_index_consistent cs :
  let st : Store := run newStorage cs in
  (∀ id s, chatSessions st !! id = Some s →
     cs_id s = id ∧ ∃ l, sessionsByUser st !! cs_userId s = Some l ∧ cs_id s ∈ l) ∧
  (∀ id m, messages st !! id = Some m →
     msg_id m = id ∧
     ∃ l, messagesBySession st !! msg_sessionId m = Some l ∧ msg_id m ∈ l).
Proof.
  pose proof (newStorage_wf) as (Hc & _ & Hk).
  apply (run_index_consistent _ cs) in Hc as [Hs Hm].
  apply (run_keyed _ cs) in Hk as [Hks Hkm].
  split.
  - intros id s Hl. rewrite (Hks _ _ Hl). split; [done | by apply Hs].
  - intros id m Hl. rewrite (Hkm _ _ Hl). split; [done | by apply Hm].
Qed.

(** C8. Deleting a message, or a session, whose identifier is not in
    the respective map returns normally and leaves the store as it
    was. *)
Theorem delete_absent_noop st id :
  (messages st !! id = None → exec st (DeleteMessage id) = (st, RVoid)) ∧
  (chatSessions st !! id = None → exec st (DeleteChatSession id) = (st, RVoid)).
Proof.
  split; intros Hid; simpl.
  - unfold deleteMessage. by rewrite Hid.
  - unfold deleteChatSession. by rewrite Hid.
Qed.

(** C9. A message created for a session identifier that names no
    session is stored under its identifier and listed by
    [getMessagesBySessionId] for that session identifier; the call
    returns the message and the session map is the same map. *)
Theorem createMessage_unknown_session st dateNow rnd now d :
  chatSessions st !! im_sessionId d = None →
  let r := createMessage st dateNow rnd now d in
  exec st (CreateMessage dateNow rnd now d) = (r.1, RMessage r.2) ∧
  messages r.1 !! msg_id r.2 = Some r.2 ∧
  r.2 ∈ getMessagesBySessionId r.1 (im_sessionId d) ∧
  chatSessions r.1 = chatSessions st.
Proof.
  intros Hs. simpl. rewrite Hs. split_and!; [done | apply lookup_insert_eq | | done].
  unfold getMessagesBySessionId. simpl.
  apply jsSort_elem_of, list_elem_of_omap.
  exists (messageIdOf dateNow rnd). rewrite !lookup_insert_eq. simpl.
  split; [|done]. apply elem_of_app. right. left.
Qed.

(** C10. Deleting an existing message removes its entry of the message
    map and, from the list of its owning session, the first occurrence
    of its identifier; users, sessions, the lists of sessions by user,
    the other messages and the lists of the other sessions are as
    before.  In a well-formed store that occurrence is the only one. *)
Theorem deleteMessage_frame st id m :
  messages st !! id = Some m →
  let st' := deleteMessage st id in
  users st' = users st ∧ chatSessions st' = chatSessions st ∧
  sessionsByUser st' = sessionsByUser st ∧
  messages st' = delete id (messages st) ∧
  (∀ k, k ≠ id → messages st' !! k = messages st !! k) ∧
  (∀ sid, sid ≠ msg_sessionId m →
     messagesBySession st' !! sid = messagesBySession st !! sid) ∧
  match messagesBySession st !! msg_sessionId m with
  | None => messagesBySession st' !! msg_sessionId m = None
  | Some l =>
      ((id ∉ l) ∧ messagesBySession st' !! msg_sessionId m = Some l) ∨
      (∃ l1 l2, l = l1 ++ id :: l2 ∧ (id ∉ l1) ∧
         messagesBySession st' !! msg_sessionId m = Some (l1 ++ l2) ∧
         (store_wf st → id ∉ l1 ++ l2))
  end.
Proof.
  intros Hm st'. subst st'. rewrite (deleteMessage_unlist _ _ _ Hm). simpl.
  split_and!; try done.
  - intros k Hk. by apply lookup_delete_ne.
  - intros sid Hsid. by apply unlist_lookup_ne.
  - unfold unlist.
    destruct (messagesBySession st !! msg_sessionId m) as [l|] eqn:Hl; simpl.
    + destruct (indexOf l id) as [i|] eqn:Hi.
      * right. destruct (indexOf_Some _ _ _ Hi) as (l1 & l2 & Heq & Hn1 & _ & Hsp).
        exists l1, l2. rewrite lookup_insert_eq, Hsp. split_and!; try done.
        intros (_ & [_ Hex] & _). destruct (Hex _ _ Hl) as [Hnd _].
        rewrite <-Hsp. by eapply splice1_removes.
      * left. split; [by apply indexOf_None | done].
    + by rewrite Hl.
Qed.

(** C1, as the code has it.  After [deleteChatSession(id)] no session
    [id] is stored.  When a session [id] was stored, the list of its
    messages is dropped, every message listed there has left the
    message map, [getMessagesBySessionId(id)] is empty and, in a
    consistent store, no stored message is owned by [id].  When no
    session [id] was stored the call changes nothing. *)
Theorem deleteChatSession_cascade st id :
  let st' := deleteChatSession st id in
  getChatSession st' id = None ∧
  (is_Some (chatSessions st !! id) →
     getMessagesBySessionId st' id = [] ∧
     messagesBySession st' !! id = None ∧
     (∀ k, k ∈ default [] (messagesBySession st !! id) → messages st' !! k = None) ∧
     (index_consistent st → ∀ k m, messages st' !! k = Some m → msg_sessionId m ≠ id)) ∧
  (chatSessions st !! id = None → st' = st).
Proof.
  intros st'. subst st'. unfold getChatSession.
  destruct (chatSessions st !! id) as [s|] eqn:Hs.
  - rewrite (deleteChatSession_unlist _ _ _ Hs). simpl.
    split_and!; [apply lookup_delete_eq | | done].
    intros _. unfold getMessagesBySessionId. simpl. rewrite lookup_delete_eq.
    split_and!; try done.
    + intros k Hk. by apply deleteAll_lookup_in.
    + intros [_ Hm] k m Hl. by eapply cascade_no_orphans.
  - unfold deleteChatSession. rewrite Hs. split_and!; [done | | done].
    intros [? ?]. done.
Qed.

(** C6, as the code has it.  The identifier of a created session, and
    of a created message, is determined by the clock reading and the
    random suffix of the call: two creations that differ in one of the
    two have different identifiers, and two creations that agree in
    both have the same identifier. *)
Theorem generated_ids_differ st1 st2 t1 r1 t2 r2 :
  (t1, r1) ≠ (t2, r2) →
  (∀ now1 now2 (d1 d2 : InsertChatSession SessionMeta),
     cs_id (createChatSession st1 t1 r1 now1 d1).2
       ≠ cs_id (createChatSession st2 t2 r2 now2 d2).2) ∧
  (∀ now1 now2 (d1 d2 : InsertMessage MessageBody),
     msg_id (createMessage st1 t1 r1 now1 d1).2
       ≠ msg_id (createMessage st2 t2 r2 now2 d2).2) ∧
  (∀ now1 now2 (d1 d2 : InsertChatSession SessionMeta),
     cs_id (createChatSession st1 t1 r1 now1 d1).2
       = cs_id (createChatSession st2 t1 r1 now2 d2).2) ∧
  (∀ now1 now2 (d1 d2 : InsertMessage MessageBody),
     msg_id (createMessage st1 t1 r1 now1 d1).2
       = msg_id (createMessage st2 t1 r1 now2 d2).2).
Proof.
  intros Hne. split_and!; intros now1 now2 d1 d2; simpl; try done;
    intros [-> ->]%genId_timestamp_suffix; done.
Qed.

(** *** Creation order of the lists of sessions *)

Lemma created_from_snoc n cs c id :
  created_from n (cs ++ [c]) id =
    if creates c id then Some (n + length cs)%nat else created_from n cs id.
Proof.
  revert n. induction cs as [|c0 cs IH]; intros n; simpl.
  - rewrite Nat.add_0_r. by destruct (creates c id).
  - rewrite IH. destruct (creates c id); [|done].
    f_equal. lia.
Qed.

Lemma created_from_bound n cs id p :
  created_from n cs id = Some p → (n ≤ p < n + length cs)%nat.
Proof.
  revert n. induction cs as [|c cs IH]; intros n; simpl; [done|].
  destruct (created_from (S n) cs id) as [q|] eqn:Hq.
  - intros [= <-]. apply IH in Hq. lia.
  - destruct (creates c id); [|done]. intros [= <-]. lia.
Qed.

Lemma created_snoc_other cs c x :
  creates c x = false → created (cs ++ [c]) x = created cs x.
Proof. intros Hc. unfold created. by rewrite created_from_snoc, Hc. Qed.

Lemma created_snoc_new cs c x :
  creates c x = true → created (cs ++ [c]) x = Some (length cs).
Proof. intros Hc. unfold created. by rewrite created_from_snoc, Hc. Qed.

Lemma created_before_snoc cs c x y :
  creates c x = false → creates c y = false →
  created_before cs x y → created_before (cs ++ [c]) x y.
Proof.
  intros Hx Hy (p & q & Hp & Hq & Hpq). exists p, q.
  by rewrite !created_snoc_other.
Qed.

Lemma fresh_run_snoc st cs c :
  fresh_run st (cs ++ [c]) = fresh_run st cs && fresh (run st cs) c.
Proof.
  revert st. induction cs as [|c0 cs IH]; intros st; simpl.
  - by rewrite andb_true_r.
  - by rewrite IH, andb_assoc.
Qed.

(** A list whose identifiers the call [c] does not create keeps its
    order when [c] is appended to the trace. *)
Lemma ordered_list_snoc cs c (l l0 : list string) :
  l `sublist_of` l0 →
  (∀ x, x ∈ l0 → creates c x = false) →
  Forall (λ x, is_Some (created cs x)) l0 ∧ StronglySorted (created_before cs) l0 →
  Forall (λ x, is_Some (created (cs ++ [c]) x)) l ∧
  StronglySorted (created_before (cs ++ [c])) l.
Proof.
  intros Hsub Hc [Hall Hsorted]. split.
  - apply Forall_forall. intros x Hx.
    assert (x ∈ l0) as Hx0 by (by eapply elem_of_sublist).
    rewrite created_snoc_other by auto.
    by apply (proj1 (Forall_forall _ _) Hall).
  - apply (StronglySorted_sublist _ _ _ Hsub).
    eapply StronglySorted_impl_elem; [|exact Hsorted].
    intros x y Hx Hy. apply created_before_snoc; auto.
Qed.

Lemma step_creation_ordered cs st c :
  store_wf st → fresh st c = true →
  creation_ordered cs st → creation_ordered (cs ++ [c]) (step st c).
Proof.
  intros (_ & [Hex _] & _) Hf Hord.
  assert (∀ u l l0, sessionsByUser st !! u = Some l0 → l `sublist_of` l0 →
            (∀ x, creates c x = false) →
            Forall (λ x, is_Some (created (cs ++ [c]) x)) l ∧
            StronglySorted (created_before (cs ++ [c])) l) as Hkeep.
  { intros u l l0 Hl0 Hsub Hc. eapply ordered_list_snoc; eauto. }
  destruct c as [| now d | t r now d | | | t r now d | | k | k];
    unfold step; simpl in *;
    try (intros u l Hl; by eapply Hkeep).
  - (* createChatSession *)
    apply bool_decide_eq_true in Hf.
    assert (∀ u l x, sessionsByUser st !! u = Some l → x ∈ l →
              bool_decide (sessionIdOf t r = x) = false) as Hold.
    { intros u l x Hl Hx. apply bool_decide_eq_false. intros <-.
      destruct (Hex _ _ Hl) as [_ Hres].
      destruct (Hres _ Hx) as (a & Ha & _). congruence. }
    intros u l. simpl. rewrite lookup_insert. case_decide as Hu.
    + intros [= <-].
      assert (Forall (λ x, is_Some (created (cs ++ [CreateChatSession t r now d]) x))
                (default [] (sessionsByUser st !! ics_userId d)) ∧
              StronglySorted (created_before (cs ++ [CreateChatSession t r now d]))
                (default [] (sessionsByUser st !! ics_userId d))) as [Hall Hsorted].
      { destruct (sessionsByUser st !! ics_userId d) as [l0|] eqn:Hl0; simpl.
        - eapply ordered_list_snoc; [done | | by eapply Hord].
          intros x Hx. simpl. by eapply Hold.
        - split; constructor. }
      assert (created (cs ++ [CreateChatSession t r now d]) (sessionIdOf t r)
              = Some (length cs)) as Hnew.
      { apply created_snoc_new. simpl. by apply bool_decide_eq_true. }
      split.
      * apply Forall_app. split; [done|]. apply Forall_singleton. by rewrite Hnew.
      * apply StronglySorted_app_2; [|done|repeat constructor].
        intros x1 x2 Hx1 ->%list_elem_of_singleton.
        destruct (sessionsByUser st !! ics_userId d) as [l0|] eqn:Hl0; simpl in *;
          [|by apply elem_of_nil in Hx1].
        destruct (Hord _ _ Hl0) as [Hall0 _].
        destruct (proj1 (Forall_forall _ _) Hall0 _ Hx1) as [p Hp].
        exists p, (length cs). split_and!; [|done|].
        -- rewrite created_snoc_other; [done|]. simpl. by eapply Hold.
        -- apply created_from_bound in Hp. lia.
    + intros Hl. eapply ordered_list_snoc; [done | | by eapply Hord].
      intros x Hx. simpl. by eapply Hold.
  - (* deleteMessage *)
    unfold deleteMessage. destruct (messages st !! k); simpl;
      intros u l Hl; by eapply Hkeep.
  - (* deleteChatSession *)
    destruct (chatSessions st !! k) as [s|] eqn:Hs.
    + rewrite (deleteChatSession_unlist _ _ _ Hs). simpl.
      intros u l (l0 & Hl0 & Hsub)%unlist_sublist. by eapply Hkeep.
    + unfold deleteChatSession. rewrite Hs. intros u l Hl; by eapply Hkeep.
Qed.

Lemma run_creation_ordered cs :
  fresh_run (newStorage : Store) cs = true →
  creation_ordered cs (run (newStorage : Store) cs).
Proof.
  induction cs as [|c cs IH] using rev_ind; intros Hf.
  - intros u l Hl. simpl in Hl. by rewrite lookup_empty in Hl.
  - rewrite fresh_run_snoc in Hf. apply andb_true_iff in Hf as [Hcs Hc].
    rewrite run_snoc. apply step_creation_ordered; [|done|by apply IH].
    apply run_store_wf; [done | apply newStorage_wf].
Qed.

(** C4, as the code has it.  In a store reached from the empty store
    by calls none of which generated an identifier already in use,
    [getAllChatSessions(userId)] returns the stored sessions owned by
    [userId], each once, by descending [updatedAt]; of two returned
    sessions with equal [updatedAt] the one created earlier comes
    first; the result is empty when [userId] owns no session. *)
Theorem getAllChatSessions_spec cs :
  fresh_run (newStorage : Store) cs = true →
  let st : Store := run newStorage cs in
  ∀ userId, let r := getAllChatSessions st userId in
  (∀ s, s ∈ r ↔ ∃ id, chatSessions st !! id = Some s ∧ cs_userId s = userId) ∧
  NoDup (cs_id <$> r) ∧
  StronglySorted (λ a b, cs_updatedAt b ≤ cs_updatedAt a) r ∧
  (∀ a b, [a; b] `sublist_of` r → cs_updatedAt a = cs_updatedAt b →
     created_before cs (cs_id a) (cs_id b)) ∧
  ((∀ id s, chatSessions st !! id = Some s → cs_userId s ≠ userId) → r = []).
Proof.
  intros Hf st userId r.
  pose proof (run_store_wf _ cs Hf newStorage_wf) as ([Hix _] & [Hex _] & [Hkey _]).
  pose proof (run_creation_ordered cs Hf) as Hord.
  fold st in Hix, Hex, Hkey, Hord.
  set (key := λ s : ChatSession SessionMeta, - cs_updatedAt s).
  assert (∀ a b : ChatSession SessionMeta,
            cs_updatedAt b - cs_updatedAt a ≤ 0 ↔ key a ≤ key b) as Hcmp.
  { intros a b. unfold key. lia. }
  assert (∀ s, s ∈ r ↔ ∃ id, chatSessions st !! id = Some s ∧ cs_userId s = userId)
    as Hmem.
  { intros s. unfold r, getAllChatSessions. rewrite jsSort_elem_of.
    by apply listing_exact. }
  destruct (listing_keys cs_userId (chatSessions st) (sessionsByUser st) userId
              cs_id Hex Hkey) as [Hids Hnd].
  split_and!; [done|..].
  - unfold r, getAllChatSessions. rewrite jsSort_perm, Hids. done.
  - eapply StronglySorted_impl_elem; [|apply (jsSort_sorted _ key Hcmp)].
    intros a b _ _. unfold key. lia.
  - intros a b Hab Heq.
    assert ([a; b] `sublist_of`
              omap (λ id, chatSessions st !! id)
                (default [] (sessionsByUser st !! userId))) as Hres.
    { etrans; [|apply (sublist_filter (λ s, key s = key a))].
      unfold r, getAllChatSessions in Hab.
      rewrite <-(jsSort_stable _ key Hcmp).
      apply (sublist_filter_mono (λ s, key s = key a)) in Hab.
      rewrite !filter_cons, filter_nil in Hab.
      rewrite decide_True in Hab by done.
      rewrite decide_True in Hab by (unfold key; lia). done. }
    apply omap_sublist_pair in Hres as (x & y & Hxy & Hx & Hy).
    apply Hkey in Hx as Hxa. apply Hkey in Hy as Hyb. subst x y.
    destruct (sessionsByUser st !! userId) as [l|] eqn:Hl; simpl in Hxy;
      [|by apply sublist_nil_r in Hxy].
    destruct (Hord _ _ Hl) as [_ Hsorted].
    by eapply StronglySorted_pair.
  - intros Hnone. destruct r as [|s r'] eqn:Hr; [done|].
    destruct (proj1 (Hmem s)) as (id & Hs & Hu); [left|].
    by destruct (Hnone _ _ Hs).
Qed.

(** C5, as the code has it.  In a store reached from the empty store
    by calls none of which generated an identifier already in use,
    [getMessagesBySessionId(sessionId)] returns the stored messages
    owned by [sessionId], each once, by ascending timestamp, and is
    empty when [sessionId] owns no message; when it is empty, creating
    two messages for [sessionId] one after the other, with different
    identifiers and with a clock that does not go back between the
    two, makes it return the first and then the second. *)
Theorem getMessagesBySessionId_spec cs :
  fresh_run (newStorage : Store) cs = true →
  let st : Store := run newStorage cs in
  ∀ sessionId, let r := getMessagesBySessionId st sessionId in
  (∀ m, m ∈ r ↔ ∃ id, messages st !! id = Some m ∧ msg_sessionId m = sessionId) ∧
  NoDup (msg_id <$> r) ∧
  StronglySorted (λ a b, msg_timestamp a ≤ msg_timestamp b) r ∧
  ((∀ id m, messages st !! id = Some m → msg_sessionId m ≠ sessionId) → r = []) ∧
  (r = [] →
   ∀ t1 r1 now1 b1 t2 r2 now2 b2, (t1, r1) ≠ (t2, r2) → now1 ≤ now2 →
     let c1 := createMessage st t1 r1 now1 (mkInsertMessage sessionId b1) in
     let c2 := createMessage c1.1 t2 r2 now2 (mkInsertMessage sessionId b2) in
     getMessagesBySessionId c2.1 sessionId = [c1.2; c2.2]).
Proof.
  intros Hf st sessionId r.
  pose proof (run_store_wf _ cs Hf newStorage_wf) as ([_ Hix] & [_ Hex] & [_ Hkey]).
  fold st in Hix, Hex, Hkey.
  assert (∀ a b : Message MessageBody,
            msg_timestamp a - msg_timestamp b ≤ 0 ↔ msg_timestamp a ≤ msg_timestamp b)
    as Hcmp by (intros; lia).
  assert (∀ m, m ∈ r ↔ ∃ id, messages st !! id = Some m ∧ msg_sessionId m = sessionId)
    as Hmem.
  { intros m. unfold r, getMessagesBySessionId. rewrite jsSort_elem_of.
    by apply listing_exact. }
  destruct (listing_keys msg_sessionId (messages st) (messagesBySession st) sessionId
              msg_id Hex Hkey) as [Hids Hnd].
  split_and!; [done|..].
  - unfold r, getMessagesBySessionId. rewrite jsSort_perm, Hids. done.
  - apply (jsSort_sorted _ msg_timestamp Hcmp).
  - intros Hnone. destruct r as [|m r'] eqn:Hr; [done|].
    destruct (proj1 (Hmem m)) as (id & Hm & Hs); [left|].
    by destruct (Hnone _ _ Hm).
  - intros Hr t1 r1 now1 b1 t2 r2 now2 b2 Hne Hclock.
    assert (default [] (messagesBySession st !! sessionId) = []) as Hnil.
    { rewrite <-Hids. unfold r, getMessagesBySessionId in Hr.
      pose proof (jsSort_perm (λ a b : Message MessageBody,
                                 msg_timestamp a - msg_timestamp b)
                    (omap (λ id, messages st !! id)
                       (default [] (messagesBySession st !! sessionId)))) as Hp.
      rewrite Hr in Hp. apply Permutation_nil_l in Hp. by rewrite <-Hp. }
    assert (messageIdOf t1 r1 ≠ messageIdOf t2 r2) as Hid.
    { intros [-> ->]%genId_timestamp_suffix. done. }
    unfold getMessagesBySessionId. simpl.
    rewrite !lookup_insert_eq, Hnil. simpl.
    rewrite lookup_insert_ne, !lookup_insert_eq by done. simpl.
    rewrite decide_True by lia. done.
Qed.

End Properties.

(** * Further properties of the store *)

(** ** Sorting and filtering *)

Lemma filter_swap {A} (P Q : A → Prop) `{!∀ x, Decision (P x)} `{!∀ x, Decision (Q x)}
    (l : list A) :
  filter P (filter Q l) = filter Q (filter P l).
Proof.
  induction l as [|x l IH]; [done|].
  rewrite !(filter_cons _ x). destruct (decide (P x)), (decide (Q x));
    rewrite ?filter_cons_True, ?filter_cons_False by done; by rewrite IH.
Qed.

Lemma filter_none {A} (P : A → Prop) `{!∀ x, Decision (P x)} (l : list A) :
  (∀ x, x ∈ l → ¬ P x) → filter P l = [].
Proof.
  induction l as [|x l IH]; intros Hl; [done|].
  rewrite filter_cons_False by (apply Hl; left). apply IH.
  intros y Hy. apply Hl. by right.
Qed.

Lemma filter_all {A} (P : A → Prop) `{!∀ x, Decision (P x)} (l : list A) :
  (∀ x, x ∈ l → P x) → filter P l = l.
Proof.
  induction l as [|x l IH]; intros Hl; [done|].
  rewrite filter_cons_True by (apply Hl; left). f_equal. apply IH.
  intros y Hy. apply Hl. by right.
Qed.

Section SortCompose.
Context {A : Type} (cmp : A → A → Z) (key : A → Z).
Hypothesis cmp_key : ∀ a b, cmp a b ≤ 0 ↔ key a ≤ key b.

(** Sorting commutes with dropping elements. *)
Lemma jsSort_filter (P : A → Prop) `{!∀ x, Decision (P x)} l :
  filter P (jsSort cmp l) = jsSort cmp (filter P l).
Proof.
  apply (jsSort_unique cmp key cmp_key).
  - eapply StronglySorted_sublist; [apply sublist_filter|].
    apply (jsSort_sorted cmp key cmp_key).
  - intros t. rewrite filter_swap, (jsSort_stable cmp key cmp_key).
    apply filter_swap.
Qed.

(** An element not below any other goes last when appended. *)
Lemma jsSort_snoc_max l x :
  (∀ a, a ∈ l → key a ≤ key x) → jsSort cmp (l ++ [x]) = jsSort cmp l ++ [x].
Proof.
  intros Hmax. symmetry. apply (jsSort_unique cmp key cmp_key).
  - apply StronglySorted_app_2; [|apply (jsSort_sorted cmp key cmp_key)|repeat constructor].
    intros a b Ha ->%list_elem_of_singleton. apply Hmax.
    by apply (jsSort_elem_of cmp a l).
  - intros t. by rewrite !filter_app, (jsSort_stable cmp key cmp_key).
Qed.

(** An element strictly below all others goes first, wherever it was. *)
Lemma jsSort_min_first l1 l2 x :
  (∀ a, a ∈ l1 ++ l2 → key x < key a) →
  jsSort cmp (l1 ++ x :: l2) = x :: jsSort cmp (l1 ++ l2).
Proof.
  intros Hmin. symmetry. apply (jsSort_unique cmp key cmp_key).
  - constructor; [apply (jsSort_sorted cmp key cmp_key)|].
    apply Forall_forall. intros a Ha. apply (jsSort_elem_of cmp a (l1 ++ l2)) in Ha.
    apply Hmin in Ha. lia.
  - intros t. rewrite filter_app, !filter_cons.
    rewrite (jsSort_stable cmp key cmp_key), filter_app.
    case_decide as Ht; [|done].
    rewrite (filter_none _ l1), (filter_none _ l2); [done|..];
      intros a Ha; [assert (a ∈ l1 ++ l2) as Hin by (apply elem_of_app; by right)
                   |assert (a ∈ l1 ++ l2) as Hin by (apply elem_of_app; by left)];
      apply Hmin in Hin; lia.
Qed.
End SortCompose.

(** ** Resolving a list of identifiers *)

Section Resolve.
Context {A : Type} (key : A → string).
Implicit Types (prim : gmap string A) (l : list string).

Lemma omap_delete prim id l :
  (∀ k a, prim !! k = Some a → key a = k) →
  omap (λ k, delete id prim !! k) l = filter (λ a, key a ≠ id) (omap (λ k, prim !! k) l).
Proof.
  intros Hkey. induction l as [|x l IH]; [done|]. csimpl.
  destruct (decide (x = id)) as [->|Hx].
  - rewrite lookup_delete_eq. destruct (prim !! id) as [a|] eqn:Ha; [|done].
    rewrite filter_cons_False; [done|]. intros Hne. by apply Hne, Hkey.
  - rewrite lookup_delete_ne by done. destruct (prim !! x) as [a|] eqn:Ha; [|done].
    rewrite filter_cons_True; [by rewrite IH|]. by rewrite (Hkey _ _ Ha).
Qed.

Lemma omap_delete_splice prim id l i :
  indexOf l id = Some i →
  omap (λ k, delete id prim !! k) (splice1 i l) = omap (λ k, delete id prim !! k) l.
Proof.
  intros (l1 & l2 & -> & _ & _ & ->)%indexOf_Some.
  rewrite !omap_app. csimpl. by rewrite lookup_delete_eq.
Qed.

Lemma omap_insert_notin prim id a l :
  id ∉ l → omap (λ k, <[id := a]> prim !! k) l = omap (λ k, prim !! k) l.
Proof.
  intros Hid. apply list_omap_ext. apply Forall2_same_length_lookup_2; [done|].
  intros i x y Hx Hy. assert (x = y) as <- by congruence.
  rewrite lookup_insert_ne; [done|]. intros <-. apply Hid.
  by eapply list_elem_of_lookup_2.
Qed.

Lemma omap_deleteAll_disjoint prim ids l :
  (∀ x, x ∈ l → x ∉ ids) →
  omap (λ k, deleteAll ids prim !! k) l = omap (λ k, prim !! k) l.
Proof.
  intros Hdisj. apply list_omap_ext. apply Forall2_same_length_lookup_2; [done|].
  intros i x y Hx Hy. assert (x = y) as <- by congruence.
  apply deleteAll_lookup_notin, Hdisj. by eapply list_elem_of_lookup_2.
Qed.
End Resolve.

Section IndexFacts.
Context {A : Type} (owner : A → string).
Implicit Types (prim : gmap string A) (idx : gmap string (list string)).

Lemma exact_notin prim idx id o :
  exact owner prim idx → prim !! id = None → id ∉ default [] (idx !! o).
Proof.
  intros Hex Hid Hin. destruct (idx !! o) as [l|] eqn:Hl; simpl in Hin;
    [|by apply elem_of_nil in Hin].
  destruct (Hex _ _ Hl) as [_ Hres]. destruct (Hres _ Hin) as (a & Ha & _). congruence.
Qed.

Lemma exact_owner prim idx id a o :
  exact owner prim idx → prim !! id = Some a → id ∈ default [] (idx !! o) → owner a = o.
Proof.
  intros Hex Hid Hin. destruct (idx !! o) as [l|] eqn:Hl; simpl in Hin;
    [|by apply elem_of_nil in Hin].
  destruct (Hex _ _ Hl) as [_ Hres]. destruct (Hres _ Hin) as (a' & Ha' & Ho). congruence.
Qed.

Lemma exact_NoDup prim idx o : exact owner prim idx → NoDup (default [] (idx !! o)).
Proof.
  intros Hex. destruct (idx !! o) as [l|] eqn:Hl; simpl; [|constructor].
  by destruct (Hex _ _ Hl).
Qed.
End IndexFacts.

(** ** Operations on the store, composed *)

Section Compose.
Context {Profile SessionMeta MessageBody : Type}.
Local Abbreviation Store := (MemoryStorage Profile SessionMeta MessageBody).
Local Abbreviation Call := (call Profile SessionMeta MessageBody).
Local Abbreviation byTimestamp :=
  (λ a b : Message MessageBody, msg_timestamp a - msg_timestamp b).
Local Abbreviation byUpdatedAtDesc :=
  (λ a b : ChatSession SessionMeta, cs_updatedAt b - cs_updatedAt a).
Implicit Types (st : Store) (c : Call) (cs : list Call).

Lemma byTimestamp_key (a b : Message MessageBody) :
  byTimestamp a b ≤ 0 ↔ msg_timestamp a ≤ msg_timestamp b.
Proof. lia. Qed.

Lemma byUpdatedAtDesc_key (a b : ChatSession SessionMeta) :
  byUpdatedAtDesc a b ≤ 0 ↔ - cs_updatedAt a ≤ - cs_updatedAt b.
Proof. lia. Qed.

Lemma reachable_wf cs :
  fresh_run (newStorage : Store) cs = true → store_wf (run (newStorage : Store) cs).
Proof. intros Hf. apply run_store_wf; [done | apply newStorage_wf]. Qed.

Lemma reachable_keyed cs : keyed (run (newStorage : Store) cs).
Proof. apply run_keyed, newStorage_wf. Qed.

(** X1. [createChatSession] stores the session it returns under the
    returned identifier, with both timestamps at the current time and
    the owner and metadata of the input, and lists it for that owner;
    it does not look the owner up: users, messages and the lists of
    messages are as before, as is every other session. *)
Theorem createChatSession_stores st dateNow rnd now d :
  let r := createChatSession st dateNow rnd now d in
  getChatSession r.1 (cs_id r.2) = Some r.2 ∧
  cs_userId r.2 = ics_userId d ∧ cs_meta r.2 = ics_meta d ∧
  cs_createdAt r.2 = now ∧ cs_updatedAt r.2 = now ∧
  r.2 ∈ getAllChatSessions r.1 (ics_userId d) ∧
  users r.1 = users st ∧ messages r.1 = messages st ∧
  messagesBySession r.1 = messagesBySession st ∧
  (∀ id, id ≠ cs_id r.2 → getChatSession r.1 id = getChatSession st id).
Proof.
  unfold getChatSession. simpl. split_and!; try done.
  - apply lookup_insert_eq.
  - unfold getAllChatSessions. simpl.
    apply jsSort_elem_of, list_elem_of_omap.
    exists (sessionIdOf dateNow rnd). rewrite !lookup_insert_eq.
    split; [|done]. apply elem_of_app. right. left.
  - intros id Hid. by apply lookup_insert_ne.
Qed.

(** X2. Deleting twice is deleting once, for messages and for sessions. *)
Theorem delete_idempotent st id :
  deleteMessage (deleteMessage st id) id = deleteMessage st id ∧
  deleteChatSession (deleteChatSession st id) id = deleteChatSession st id.
Proof.
  split.
  - assert (messages (deleteMessage st id) !! id = None) as Hgone.
    { unfold deleteMessage. destruct (messages st !! id) eqn:Hm; simpl; [|done].
      apply lookup_delete_eq. }
    unfold deleteMessage at 1. by rewrite Hgone.
  - assert (chatSessions (deleteChatSession st id) !! id = None) as Hgone.
    { unfold deleteChatSession. destruct (chatSessions st !! id) eqn:Hs; simpl; [|done].
      apply lookup_delete_eq. }
    unfold deleteChatSession at 1. by rewrite Hgone.
Qed.

Lemma deleteMessage_resolved st id sid :
  keyed st →
  getMessagesBySessionId (deleteMessage st id) sid =
    filter (λ m, msg_id m ≠ id) (getMessagesBySessionId st sid).
Proof.
  intros [_ Hkey].
  destruct (messages st !! id) as [m|] eqn:Hm.
  - rewrite (deleteMessage_unlist _ _ _ Hm). unfold getMessagesBySessionId. simpl.
    rewrite (jsSort_filter byTimestamp msg_timestamp byTimestamp_key). f_equal.
    rewrite <-(omap_delete msg_id _ id _ Hkey).
    destruct (decide (msg_sessionId m = sid)) as [<-|Hne];
      [|by rewrite unlist_lookup_ne].
    unfold unlist.
    destruct (messagesBySession st !! msg_sessionId m) as [l|] eqn:Hl; simpl;
      [|by rewrite Hl].
    destruct (indexOf l id) as [i|] eqn:Hi; [|by rewrite Hl].
    rewrite lookup_insert_eq. simpl. by apply omap_delete_splice.
  - unfold deleteMessage. rewrite Hm. symmetry. apply filter_all.
    intros m' Hm'. unfold getMessagesBySessionId in Hm'.
    apply jsSort_elem_of, list_elem_of_omap in Hm' as (k & _ & Hk).
    rewrite (Hkey _ _ Hk). intros ->. congruence.
Qed.

(** X3. In every reachable store, after [deleteMessage(id)] each
    session's listing is the listing before without the message [id],
    the other messages in the same order. *)
Theorem deleteMessage_listing cs id sessionId :
  let st : Store := run newStorage cs in
  getMessagesBySessionId (deleteMessage st id) sessionId =
    filter (λ m, msg_id m ≠ id) (getMessagesBySessionId st sessionId).
Proof. apply deleteMessage_resolved, reachable_keyed. Qed.

(** X4. In a store reached with fresh identifiers no list of the two
    indexes has a duplicate or a dangling entry: every listed identifier
    resolves to a stored record of that owner. *)
Theorem reachable_index_exact cs :
  fresh_run (newStorage : Store) cs = true →
  let st : Store := run newStorage cs in
  (∀ u l, sessionsByUser st !! u = Some l →
     NoDup l ∧ ∀ id, id ∈ l → ∃ s, chatSessions st !! id = Some s ∧ cs_userId s = u) ∧
  (∀ sid l, messagesBySession st !! sid = Some l →
     NoDup l ∧ ∀ id, id ∈ l → ∃ m, messages st !! id = Some m ∧ msg_sessionId m = sid).
Proof. intros Hf. by destruct (reachable_wf cs Hf) as (_ & [Hs Hm] & _). Qed.

Lemma absent_not_listed st id sid :
  keyed st → messages st !! id = None →
  filter (λ m, msg_id m ≠ id) (getMessagesBySessionId st sid) =
    getMessagesBySessionId st sid.
Proof.
  intros Hk Hid. rewrite <-deleteMessage_resolved by done.
  unfold deleteMessage. by rewrite Hid.
Qed.

Lemma createMessage_resolved st dateNow rnd now d sid :
  store_wf st → messages st !! messageIdOf dateNow rnd = None →
  getMessagesBySessionId (createMessage st dateNow rnd now d).1 sid =
    if decide (sid = im_sessionId d)
    then jsSort byTimestamp
           (omap (λ id, messages st !! id) (default [] (messagesBySession st !! sid))
              ++ [(createMessage st dateNow rnd now d).2])
    else getMessagesBySessionId st sid.
Proof.
  intros (_ & [_ Hex] & _) Hfresh. unfold getMessagesBySessionId. simpl.
  pose proof (exact_notin msg_sessionId _ _ _ sid Hex Hfresh) as Hnotin.
  case_decide as Hsid.
  - subst sid. rewrite lookup_insert_eq. simpl. rewrite omap_app. csimpl.
    rewrite lookup_insert_eq. by rewrite omap_insert_notin.
  - rewrite lookup_insert_ne by done. by rewrite omap_insert_notin.
Qed.

(** X5. In a store reached with fresh identifiers, creating a message
    with a fresh identifier leaves the listings of the other sessions
    as they were and adds the message to the listing of its session;
    when no listed message of that session has a later timestamp, the
    new message is appended at the end. *)
Theorem createMessage_listing cs dateNow rnd now d :
  fresh_run (newStorage : Store) cs = true →
  let st : Store := run newStorage cs in
  messages st !! messageIdOf dateNow rnd = None →
  let r := createMessage st dateNow rnd now d in
  (∀ sid, sid ≠ im_sessionId d →
     getMessagesBySessionId r.1 sid = getMessagesBySessionId st sid) ∧
  getMessagesBySessionId r.1 (im_sessionId d)
    ≡ₚ r.2 :: getMessagesBySessionId st (im_sessionId d) ∧
  ((∀ m, m ∈ getMessagesBySessionId st (im_sessionId d) → msg_timestamp m ≤ now) →
   getMessagesBySessionId r.1 (im_sessionId d)
     = getMessagesBySessionId st (im_sessionId d) ++ [r.2]).
Proof.
  intros Hf st Hfresh r. pose proof (reachable_wf cs Hf) as Hwf. fold st in Hwf.
  split_and!.
  - intros sid Hsid. unfold r. rewrite createMessage_resolved by done.
    by rewrite decide_False.
  - unfold r. rewrite createMessage_resolved by done. rewrite decide_True by done.
    unfold getMessagesBySessionId. rewrite !jsSort_perm.
    by rewrite Permutation_app_comm.
  - intros Hmax. unfold r. rewrite createMessage_resolved by done.
    rewrite decide_True by done.
    apply (jsSort_snoc_max byTimestamp msg_timestamp byTimestamp_key).
    intros m Hm. simpl. apply Hmax. unfold getMessagesBySessionId.
    by apply jsSort_elem_of.
Qed.

(** X6. In a store reached with fresh identifiers, creating a message
    with a fresh identifier and deleting it again restores the message
    map and every listing; users and the lists of sessions were never
    touched, and the session keeps the [updatedAt] of the creation. *)
Theorem createMessage_deleteMessage cs dateNow rnd now d :
  fresh_run (newStorage : Store) cs = true →
  let st : Store := run newStorage cs in
  messages st !! messageIdOf dateNow rnd = None →
  let st1 := (createMessage st dateNow rnd now d).1 in
  let st2 := deleteMessage st1 (messageIdOf dateNow rnd) in
  messages st2 = messages st ∧
  (∀ sid, getMessagesBySessionId st2 sid = getMessagesBySessionId st sid) ∧
  users st2 = users st ∧ sessionsByUser st2 = sessionsByUser st ∧
  chatSessions st2 = chatSessions st1.
Proof.
  intros Hf st Hfresh st1 st2. pose proof (reachable_wf cs Hf) as Hwf. fold st in Hwf.
  assert (messages st1 !! messageIdOf dateNow rnd
          = Some (createMessage st dateNow rnd now d).2) as Hm1
    by apply lookup_insert_eq.
  assert (keyed st1) as Hk1.
  { apply (step_keyed st (CreateMessage dateNow rnd now d)). by destruct Hwf as (_ & _ & ?). }
  split_and!.
  - unfold st2. rewrite (deleteMessage_unlist _ _ _ Hm1). simpl.
    by apply delete_insert_id.
  - intros sid. unfold st2. rewrite deleteMessage_resolved by done.
    unfold st1. rewrite createMessage_resolved by done. case_decide as Hsid.
    + rewrite (jsSort_filter byTimestamp msg_timestamp byTimestamp_key).
      rewrite filter_app, filter_cons_False, filter_nil, app_nil_r by (simpl; tauto).
      unfold getMessagesBySessionId. f_equal. apply filter_all.
      intros m (k & _ & Hk)%list_elem_of_omap.
      destruct Hwf as (_ & _ & [_ Hkey]). rewrite (Hkey _ _ Hk). intros ->. congruence.
    + apply absent_not_listed; [by destruct Hwf as (_ & _ & ?) | done].
  - unfold st2. by rewrite (deleteMessage_unlist _ _ _ Hm1).
  - unfold st2. by rewrite (deleteMessage_unlist _ _ _ Hm1).
  - unfold st2. by rewrite (deleteMessage_unlist _ _ _ Hm1).
Qed.

Lemma deleteChatSession_resolved st id u :
  keyed st →
  getAllChatSessions (deleteChatSession st id) u =
    filter (λ s, cs_id s ≠ id) (getAllChatSessions st u).
Proof.
  intros [Hkey _].
  destruct (chatSessions st !! id) as [s|] eqn:Hs.
  - rewrite (deleteChatSession_unlist _ _ _ Hs). unfold getAllChatSessions. simpl.
    rewrite (jsSort_filter byUpdatedAtDesc (λ s, - cs_updatedAt s) byUpdatedAtDesc_key).
    f_equal. rewrite <-(omap_delete cs_id _ id _ Hkey).
    destruct (decide (cs_userId s = u)) as [<-|Hne];
      [|by rewrite unlist_lookup_ne].
    unfold unlist.
    destruct (sessionsByUser st !! cs_userId s) as [l|] eqn:Hl; simpl;
      [|by rewrite Hl].
    destruct (indexOf l id) as [i|] eqn:Hi; [|by rewrite Hl].
    rewrite lookup_insert_eq. simpl. by apply omap_delete_splice.
  - unfold deleteChatSession. rewrite Hs. symmetry. apply filter_all.
    intros s' Hs'. unfold getAllChatSessions in Hs'.
    apply jsSort_elem_of, list_elem_of_omap in Hs' as (k & _ & Hk).
    rewrite (Hkey _ _ Hk). intros ->. congruence.
Qed.

(** X7. In a store reached with fresh identifiers, [deleteChatSession(id)]
    takes the session [id] out of every user's listing and keeps the
    other sessions in their order; the listings of the messages of the
    other sessions and the users are as before: the delete cascades to
    the messages of [id] and nowhere else. *)
Theorem deleteChatSession_listings cs id :
  fresh_run (newStorage : Store) cs = true →
  let st : Store := run newStorage cs in
  let st' := deleteChatSession st id in
  users st' = users st ∧
  (∀ u, getAllChatSessions st' u = filter (λ s, cs_id s ≠ id) (getAllChatSessions st u)) ∧
  (∀ sid, sid ≠ id → getMessagesBySessionId st' sid = getMessagesBySessionId st sid).
Proof.
  intros Hf st st'.
  pose proof (reachable_wf cs Hf) as (_ & [_ Hex] & Hk). fold st in Hex, Hk.
  split_and!.
  - unfold st', deleteChatSession. by destruct (chatSessions st !! id).
  - intros u. by apply deleteChatSession_resolved.
  - intros sid Hsid. unfold st'.
    destruct (chatSessions st !! id) as [s|] eqn:Hs;
      [|unfold deleteChatSession; by rewrite Hs].
    rewrite (deleteChatSession_unlist _ _ _ Hs). unfold getMessagesBySessionId. simpl.
    rewrite lookup_delete_ne by done. f_equal.
    apply omap_deleteAll_disjoint. intros x Hx Hx'.
    destruct (messagesBySession st !! sid) as [l|] eqn:Hl; simpl in Hx;
      [|by apply elem_of_nil in Hx].
    destruct (Hex _ _ Hl) as [_ Hres]. destruct (Hres _ Hx) as (m & Hm & Ho).
    apply Hsid. rewrite <-Ho. by eapply (exact_owner msg_sessionId).
Qed.

(** X8. In a store reached with fresh identifiers, creating a session
    with a fresh identifier leaves the listings of the other users as
    they were and adds the session to its owner's listing; when the
    current time is later than the [updatedAt] of every listed session
    of the owner, the new session is listed first. *)
Theorem createChatSession_listing cs dateNow rnd now d :
  fresh_run (newStorage : Store) cs = true →
  let st : Store := run newStorage cs in
  chatSessions st !! sessionIdOf dateNow rnd = None →
  let r := createChatSession st dateNow rnd now d in
  (∀ u, u ≠ ics_userId d → getAllChatSessions r.1 u = getAllChatSessions st u) ∧
  getAllChatSessions r.1 (ics_userId d) ≡ₚ r.2 :: getAllChatSessions st (ics_userId d) ∧
  ((∀ s, s ∈ getAllChatSessions st (ics_userId d) → cs_updatedAt s < now) →
   getAllChatSessions r.1 (ics_userId d) = r.2 :: getAllChatSessions st (ics_userId d)).
Proof.
  intros Hf st Hfresh r.
  pose proof (reachable_wf cs Hf) as (_ & [Hex _] & _). fold st in Hex.
  assert (∀ u, omap (λ id, chatSessions r.1 !! id) (default [] (sessionsByUser st !! u))
               = omap (λ id, chatSessions st !! id) (default [] (sessionsByUser st !! u)))
    as Hold.
  { intros u. simpl. apply omap_insert_notin. by eapply (exact_notin cs_userId). }
  assert (omap (λ id, chatSessions r.1 !! id)
            (default [] (sessionsByUser r.1 !! ics_userId d))
          = omap (λ id, chatSessions st !! id)
              (default [] (sessionsByUser st !! ics_userId d)) ++ [r.2]) as Hnew.
  { rewrite <-Hold. simpl. rewrite lookup_insert_eq. simpl.
    rewrite omap_app. csimpl. by rewrite lookup_insert_eq. }
  split_and!.
  - intros u Hu. unfold getAllChatSessions. f_equal. rewrite <-Hold.
    simpl. by rewrite lookup_insert_ne.
  - unfold getAllChatSessions. rewrite !jsSort_perm, Hnew.
    by rewrite Permutation_app_comm.
  - intros Hlater. unfold getAllChatSessions. rewrite Hnew.
    rewrite (jsSort_min_first byUpdatedAtDesc (λ s, - cs_updatedAt s)
               byUpdatedAtDesc_key _ []).
    + by rewrite app_nil_r.
    + intros a Ha. rewrite app_nil_r in Ha.
      assert (cs_updatedAt a < now); [|simpl; lia].
      apply Hlater. unfold getAllChatSessions. by apply jsSort_elem_of.
Qed.

(** X9. In a store reached with fresh identifiers, creating a message
    in an existing session whose owner's other listed sessions all have
    an earlier [updatedAt] than the current time moves that session,
    with its [updatedAt] refreshed, to the front of the owner's listing
    and keeps the other sessions in their order; the listings of the
    other users are as before. *)
Theorem createMessage_bumps_session cs dateNow rnd now d s :
  fresh_run (newStorage : Store) cs = true →
  let st : Store := run newStorage cs in
  chatSessions st !! im_sessionId d = Some s →
  let st' := (createMessage st dateNow rnd now d).1 in
  (∀ u, u ≠ cs_userId s → getAllChatSessions st' u = getAllChatSessions st u) ∧
  ((∀ s', s' ∈ getAllChatSessions st (cs_userId s) →
      cs_id s' ≠ im_sessionId d → cs_updatedAt s' < now) →
   getAllChatSessions st' (cs_userId s) =
     touch now s ::
       filter (λ s', cs_id s' ≠ im_sessionId d) (getAllChatSessions st (cs_userId s))).
Proof.
  intros Hf st Hs st'.
  pose proof (reachable_wf cs Hf) as ([Hix _] & [Hex _] & [Hkey _]).
  fold st in Hix, Hex, Hkey.
  set (sid := im_sessionId d) in *.
  assert (chatSessions st' = <[sid := touch now s]> (chatSessions st)) as Hcs.
  { unfold st'. simpl. fold sid. by rewrite Hs. }
  assert (sessionsByUser st' = sessionsByUser st) as Hsu by done.
  split.
  - intros u Hu. unfold getAllChatSessions. rewrite Hcs, Hsu. f_equal.
    apply omap_insert_notin. intros Hin. apply Hu. symmetry.
    by eapply (exact_owner cs_userId).
  - intros Hlater. destruct (Hix _ _ Hs) as (l & Hl & Hin).
    apply list_elem_of_split in Hin as (l1 & l2 & ->).
    destruct (Hex _ _ Hl) as [Hnd _].
    apply NoDup_app in Hnd as (_ & Hdisj & [Hn2 _]%NoDup_cons).
    assert (sid ∉ l1) as Hn1.
    { intros Hin. apply (Hdisj _ Hin). left. }
    assert (∀ l0 : list string, sid ∉ l0 →
              filter (λ s', cs_id s' ≠ sid) (omap (λ id, chatSessions st !! id) l0)
              = omap (λ id, chatSessions st !! id) l0) as Hkeep.
    { intros l0 Hl0. apply filter_all. intros a (k & Hk & Ha)%list_elem_of_omap.
      rewrite (Hkey _ _ Ha). by intros ->. }
    unfold getAllChatSessions in *. rewrite Hcs, Hsu, Hl in *. simpl in *.
    rewrite (jsSort_filter byUpdatedAtDesc (λ s, - cs_updatedAt s) byUpdatedAtDesc_key).
    rewrite !omap_app. csimpl. rewrite lookup_insert_eq, Hs.
    rewrite !omap_insert_notin by done.
    rewrite filter_app, filter_cons_False, !Hkeep by (done || (rewrite (Hkey _ _ Hs); tauto)).
    apply (jsSort_min_first byUpdatedAtDesc (λ s, - cs_updatedAt s) byUpdatedAtDesc_key).
    intros a Ha. assert (cs_updatedAt a < now); [|simpl; lia].
    apply Hlater.
    + apply jsSort_elem_of. rewrite omap_app. csimpl. rewrite Hs.
      apply elem_of_app in Ha as [Ha|Ha]; apply elem_of_app; [by left|].
      right. by right.
    + apply elem_of_app in Ha as [Ha|Ha];
        apply list_elem_of_omap in Ha as (k & Hk & Ha);
        rewrite (Hkey _ _ Ha); by intros ->.
Qed.

(** *** Users along a trace *)

Lemma step_users_other st c id :
  (∀ now d, c = UpsertUserC now d → uu_id d ≠ id) →
  users (step st c) !! id = users st !! id.
Proof.
  intros Hc. destruct c as [| now d | t r now d | | | t r now d | | k | k];
    unfold step; simpl; try done.
  - apply lookup_insert_ne. by apply (Hc now d).
  - unfold deleteMessage. by destruct (messages st !! k).
  - unfold deleteChatSession. by destruct (chatSessions st !! k).
Qed.

Lemma run_users_other st cs id :
  (∀ now d, UpsertUserC now d ∈ cs → uu_id d ≠ id) →
  users (run st cs) !! id = users st !! id.
Proof.
  revert st. induction cs as [|c cs IH]; intros st Hcs; [done|]. simpl.
  rewrite IH by (intros now d Hin; apply (Hcs now d); by right).
  apply step_users_other. intros now d ->. apply (Hcs now d). left.
Qed.

Lemma run_users_origin st cs id :
  is_Some (users (run st cs) !! id) →
  is_Some (users st !! id) ∨ ∃ now d, UpsertUserC now d ∈ cs ∧ uu_id d = id.
Proof.
  revert st. induction cs as [|c cs IH]; intros st Hu; [by left|].
  simpl in Hu. destruct (IH _ Hu) as [Hstep|(now & d & Hin & Hd)].
  - assert ((∃ now d, c = UpsertUserC now d ∧ uu_id d = id) ∨
            (∀ now d, c = UpsertUserC now d → uu_id d ≠ id)) as [(now & d & -> & Hd)|Hno].
    { destruct c as [| now d | | | | | | |]; try (right; intros; discriminate).
      destruct (decide (uu_id d = id)) as [Hd|Hd]; [left; eauto|].
      right. intros now' d' [= -> ->]. done. }
    + right. exists now, d. split; [left | done].
    + left. by rewrite <-(step_users_other st c id Hno).
  - right. exists now, d. split; [by right | done].
Qed.

(** X10. In every reachable store [getUser(id)] finds a user exactly
    when some [upsertUser] of the trace carried that identifier, and the
    user found has the profile and the time of the last such call. *)
Theorem getUser_run cs id :
  let st : Store := run newStorage cs in
  (is_Some (getUser st id) ↔ ∃ now d, UpsertUserC now d ∈ cs ∧ uu_id d = id) ∧
  (∀ cs1 now d cs2,
     cs = cs1 ++ UpsertUserC now d :: cs2 → uu_id d = id →
     (∀ now' d', UpsertUserC now' d' ∈ cs2 → uu_id d' ≠ id) →
     ∃ u, getUser st id = Some u ∧ user_id u = id ∧
          user_profile u = uu_profile d ∧ user_updatedAt u = now).
Proof.
  intros st. unfold getUser.
  assert (∀ cs1 now d cs2,
     cs = cs1 ++ UpsertUserC now d :: cs2 → uu_id d = id →
     (∀ now' d', UpsertUserC now' d' ∈ cs2 → uu_id d' ≠ id) →
     ∃ u, users st !! id = Some u ∧ user_id u = id ∧
          user_profile u = uu_profile d ∧ user_updatedAt u = now) as Hlast.
  { intros cs1 now d cs2 -> Hd Hlater. unfold st.
    rewrite run_app. simpl. rewrite run_users_other by done.
    unfold step. simpl. rewrite <-Hd, lookup_insert_eq. eauto. }
  split; [split|done].
  - intros [Hnone|Hin]%run_users_origin; [|done].
    simpl in Hnone. rewrite lookup_empty in Hnone. by destruct Hnone.
  - intros (now & d & Hin & Hd).
    apply list_elem_of_split in Hin as (cs1 & cs2 & ->). unfold st.
    rewrite run_app. simpl.
    destruct (run_user_createdAt
                (step (run (newStorage : Store) cs1) (UpsertUserC now d)) cs2 id
                (upsertUser (run newStorage cs1) now d).2) as (u & Hu & _); [|by eexists].
    unfold step. simpl. rewrite <-Hd. apply lookup_insert_eq.
Qed.

(** *** Where stored records come from *)

(** X11. In every reachable store each stored session was created by a
    [createChatSession] of the trace: it is stored under the identifier
    that call generated and has that call's owner, metadata and creation
    time.  Each stored message is, field by field, the message a
    [createMessage] of the trace returned. *)
Theorem stored_records_origin cs :
  let st : Store := run newStorage cs in
  (∀ id s, chatSessions st !! id = Some s →
     ∃ t r now d, CreateChatSession t r now d ∈ cs ∧ id = sessionIdOf t r ∧
       cs_id s = id ∧ cs_userId s = ics_userId d ∧ cs_meta s = ics_meta d ∧
       cs_createdAt s = now) ∧
  (∀ id m, messages st !! id = Some m →
     ∃ t r now d, CreateMessage t r now d ∈ cs ∧ id = messageIdOf t r ∧
       m = mkMessage id (im_sessionId d) (im_body d) now).
Proof.
  induction cs as [|c cs [IHs IHm]] using rev_ind.
  { split; intros ?? Hl; simpl in Hl; by rewrite lookup_empty in Hl. }
  simpl. rewrite run_snoc. set (st := run (newStorage : Store) cs) in *.
  assert (∀ id s, chatSessions st !! id = Some s →
     ∃ t r now d, CreateChatSession t r now d ∈ cs ++ [c] ∧ id = sessionIdOf t r ∧
       cs_id s = id ∧ cs_userId s = ics_userId d ∧ cs_meta s = ics_meta d ∧
       cs_createdAt s = now) as IHs'.
  { intros id s (t & r & now & d & Hin & Hrest)%IHs. exists t, r, now, d.
    split; [apply elem_of_app; by left | done]. }
  assert (∀ id m, messages st !! id = Some m →
     ∃ t r now d, CreateMessage t r now d ∈ cs ++ [c] ∧ id = messageIdOf t r ∧
       m = mkMessage id (im_sessionId d) (im_body d) now) as IHm'.
  { intros id m (t & r & now & d & Hin & Hrest)%IHm. exists t, r, now, d.
    split; [apply elem_of_app; by left | done]. }
  clear IHs IHm.
  destruct c as [| now d | t r now d | | | t r now d | | k | k];
    unfold step; simpl; try (split; assumption).
  - split; [|done]. intros id s. rewrite lookup_insert. case_decide as Hid; [|by apply IHs'].
    intros [= <-]. exists t, r, now, d. split_and!; try done.
    apply elem_of_app. right. left.
  - split.
    + destruct (chatSessions st !! im_sessionId d) as [s0|] eqn:Hs0; [|done].
      intros id s. rewrite lookup_insert. case_decide as Hid; [|by apply IHs'].
      intros [= <-]. subst id.
      destruct (IHs' _ _ Hs0) as (t0 & r0 & now0 & d0 & Hin & Hrest).
      exists t0, r0, now0, d0. by split.
    + intros id m. rewrite lookup_insert. case_decide as Hid; [|by apply IHm'].
      intros [= <-]. subst id. exists t, r, now, d. split_and!; try done.
      apply elem_of_app. right. left.
  - unfold deleteMessage. destruct (messages st !! k) as [m0|] eqn:Hk; [|by split].
    split; simpl; [done|]. intros id m. rewrite lookup_delete.
    case_decide; [done | by apply IHm'].
  - unfold deleteChatSession. destruct (chatSessions st !! k) as [s0|] eqn:Hk; [|by split].
    split; simpl.
    + intros id s. rewrite lookup_delete. case_decide; [done | by apply IHs'].
    + intros id m Hl. apply IHm'.
      destruct (decide (id ∈ default [] (messagesBySession st !! k))).
      * by rewrite deleteAll_lookup_in in Hl.
      * by rewrite deleteAll_lookup_notin in Hl.
Qed.

(** *** Timestamps under a clock that never goes back *)

Lemma timestamps_bounded_mono t t' st :
  t ≤ t' → timestamps_bounded t st → timestamps_bounded t' st.
Proof.
  intros Ht (Hu & Hs & Hm). split_and!.
  - intros id u Hl. specialize (Hu _ _ Hl). lia.
  - intros id s Hl. specialize (Hs _ _ Hl). lia.
  - intros id m Hl. destruct (Hm _ _ Hl) as [Hb Hsess]. split; [lia | done].
Qed.

Lemma step_timestamps_bounded t st c :
  timestamps_bounded t st →
  match clockOf c with Some now => t ≤ now | None => True end →
  timestamps_bounded (default t (clockOf c)) (step st c).
Proof.
  intros (Hu & Hs & Hm) Hclock.
  destruct c as [| now d | dn r now d | | | dn r now d | | k | k];
    unfold step, timestamps_bounded; simpl in *; try (by split_and!).
  - (* upsertUser *)
    split_and!.
    + intros id u. rewrite lookup_insert. case_decide as Hid.
      * intros [= <-]. simpl. destruct (users st !! uu_id d) as [old|] eqn:Hold; [|lia].
        specialize (Hu _ _ Hold). lia.
      * intros Hl. specialize (Hu _ _ Hl). lia.
    + intros id s Hl. specialize (Hs _ _ Hl). lia.
    + intros id m Hl. destruct (Hm _ _ Hl) as [Hb Hsess]. split; [lia | done].
  - (* createChatSession *)
    split_and!.
    + intros id u Hl. specialize (Hu _ _ Hl). lia.
    + intros id s. rewrite lookup_insert. case_decide as Hid.
      * intros [= <-]. simpl. lia.
      * intros Hl. specialize (Hs _ _ Hl). lia.
    + intros id m Hl. destruct (Hm _ _ Hl) as [Hb Hsess]. split; [lia|].
      intros s. rewrite lookup_insert. case_decide as Hid.
      * intros [= <-]. simpl. lia.
      * apply Hsess.
  - (* createMessage *)
    assert (∀ id s,
      match chatSessions st !! im_sessionId d with
      | Some session => <[im_sessionId d := touch now session]> (chatSessions st)
      | None => chatSessions st
      end !! id = Some s →
      (id = im_sessionId d ∧ cs_updatedAt s = now ∧
         ∃ s0, chatSessions st !! id = Some s0 ∧ cs_createdAt s = cs_createdAt s0) ∨
      (id ≠ im_sessionId d ∧ chatSessions st !! id = Some s)) as Hcases.
    { intros id s. destruct (chatSessions st !! im_sessionId d) as [s0|] eqn:Hs0.
      - rewrite lookup_insert. case_decide as Hid.
        + intros [= <-]. left. subst id. eauto.
        + by right.
      - intros Hl. right. split; [|done]. intros ->. congruence. }
    split_and!.
    + intros id u Hl. specialize (Hu _ _ Hl). lia.
    + intros id s [(-> & Hup & s0 & Hs0 & Hcr)|[_ Hl]]%Hcases.
      * specialize (Hs _ _ Hs0). lia.
      * specialize (Hs _ _ Hl). lia.
    + intros id m. rewrite lookup_insert. case_decide as Hid.
      * intros [= <-]. simpl. split; [lia|].
        intros s [(_ & Hup & _)|[Hne _]]%Hcases; [lia | done].
      * intros Hl. destruct (Hm _ _ Hl) as [Hb Hsess]. split; [lia|].
        intros s [(_ & Hup & _)|[_ Hl']]%Hcases; [lia | by apply Hsess].
  - (* deleteMessage *)
    unfold deleteMessage. destruct (messages st !! k) as [m0|] eqn:Hk; [|by split_and!].
    split_and!; simpl; [done..|]. intros id m. rewrite lookup_delete.
    case_decide; [done | apply Hm].
  - (* deleteChatSession *)
    unfold deleteChatSession.
    destruct (chatSessions st !! k) as [s0|] eqn:Hk; [|by split_and!].
    split_and!; simpl; [done | |].
    + intros id s. rewrite lookup_delete. case_decide; [done | apply Hs].
    + intros id m Hl.
      assert (messages st !! id = Some m) as Hl'.
      { destruct (decide (id ∈ default [] (messagesBySession st !! k))).
        - by rewrite deleteAll_lookup_in in Hl.
        - by rewrite deleteAll_lookup_notin in Hl. }
      destruct (Hm _ _ Hl') as [Hb Hsess]. split; [done|].
      intros s. rewrite lookup_delete. case_decide; [done | apply Hsess].
Qed.

Lemma run_timestamps_bounded cs t st :
  timestamps_bounded t st → clock_monotone t cs = true →
  ∃ t', timestamps_bounded t' (run st cs).
Proof.
  revert t st. induction cs as [|c cs IH]; intros t st Hst Hmono; [by exists t|].
  simpl in *. destruct (clockOf c) as [now|] eqn:Hc.
  - apply andb_true_iff in Hmono as [Hle%bool_decide_eq_true Hmono].
    apply (IH now); [|done].
    pose proof (step_timestamps_bounded t st c Hst) as Hstep.
    rewrite Hc in Hstep. by apply Hstep.
  - apply (IH t); [|done].
    pose proof (step_timestamps_bounded t st c Hst) as Hstep.
    rewrite Hc in Hstep. by apply Hstep.
Qed.

(** X12. When the readings of [new Date()] never go back along the
    trace, in the store it reaches no user and no session was updated
    before it was created, and no stored message has a timestamp later
    than the [updatedAt] of its session, when that session is stored. *)
Theorem monotone_clock_timestamps t0 cs :
  clock_monotone t0 cs = true →
  let st : Store := run newStorage cs in
  (∀ id u, users st !! id = Some u → user_createdAt u ≤ user_updatedAt u) ∧
  (∀ id s, chatSessions st !! id = Some s → cs_createdAt s ≤ cs_updatedAt s) ∧
  (∀ id m s, messages st !! id = Some m →
     chatSessions st !! msg_sessionId m = Some s → msg_timestamp m ≤ cs_updatedAt s).
Proof.
  intros Hmono st.
  destruct (run_timestamps_bounded cs t0 (newStorage : Store)) as (t & Hu & Hs & Hm);
    [|done|].
  { split_and!; intros ?? Hl; simpl in Hl; by rewrite lookup_empty in Hl. }
  fold st in Hu, Hs, Hm. split_and!.
  - intros id u Hl. specialize (Hu _ _ Hl). lia.
  - intros id s Hl. specialize (Hs _ _ Hl). lia.
  - intros id m s Hl Hsess. destruct (Hm _ _ Hl) as [_ Hb]. by apply Hb.
Qed.

(** *** What the listings can and cannot return *)

Lemma omap_length_le {A B} (f : A → option B) (l : list A) :
  (length (omap f l) ≤ length l)%nat.
Proof.
  induction l as [|x l IH]; csimpl; [done|].
  destruct (f x); simpl; lia.
Qed.

(** X13. In any store, consistent or not, the two listings are sorted
    (messages by ascending timestamp, sessions by descending
    [updatedAt]), return only records that are stored under an
    identifier of the list they were asked for, and are no longer than
    that list. *)
Theorem listings_only_stored st :
  (∀ sid, let r := getMessagesBySessionId st sid in
     StronglySorted (λ a b, msg_timestamp a ≤ msg_timestamp b) r ∧
     (length r ≤ length (default [] (messagesBySession st !! sid)))%nat ∧
     ∀ m, m ∈ r →
       ∃ id, id ∈ default [] (messagesBySession st !! sid) ∧ messages st !! id = Some m) ∧
  (∀ u, let r := getAllChatSessions st u in
     StronglySorted (λ a b, cs_updatedAt b ≤ cs_updatedAt a) r ∧
     (length r ≤ length (default [] (sessionsByUser st !! u)))%nat ∧
     ∀ s, s ∈ r →
       ∃ id, id ∈ default [] (sessionsByUser st !! u) ∧ chatSessions st !! id = Some s).
Proof.
  split.
  - intros sid r. unfold r, getMessagesBySessionId. split_and!.
    + apply (jsSort_sorted byTimestamp msg_timestamp byTimestamp_key).
    + rewrite jsSort_perm. apply omap_length_le.
    + intros m Hm. by apply jsSort_elem_of, list_elem_of_omap in Hm.
  - intros u r. unfold r, getAllChatSessions. split_and!.
    + eapply StronglySorted_impl_elem;
        [|apply (jsSort_sorted byUpdatedAtDesc (λ s, - cs_updatedAt s) byUpdatedAtDesc_key)].
      intros a b _ _. simpl. lia.
    + rewrite jsSort_perm. apply omap_length_le.
    + intros s Hs. by apply jsSort_elem_of, list_elem_of_omap in Hs.
Qed.

(** X14. In every reachable store, whatever identifiers were generated,
    a stored session is in the listing of its owner and a stored
    message is in the listing of its session. *)
Theorem stored_records_listed cs :
  let st : Store := run newStorage cs in
  (∀ id s, chatSessions st !! id = Some s → s ∈ getAllChatSessions st (cs_userId s)) ∧
  (∀ id m, messages st !! id = Some m → m ∈ getMessagesBySessionId st (msg_sessionId m)).
Proof.
  intros st.
  destruct (run_index_consistent (newStorage : Store) cs) as [Hs Hm].
  { by destruct (newStorage_wf (Profile:=Profile) (SessionMeta:=SessionMeta)
                   (MessageBody:=MessageBody)) as [? _]. }
  fold st in Hs, Hm. split.
  - intros id s Hl. destruct (Hs _ _ Hl) as (l & Hidx & Hin).
    unfold getAllChatSessions. apply jsSort_elem_of, list_elem_of_omap.
    exists id. by rewrite Hidx.
  - intros id m Hl. destruct (Hm _ _ Hl) as (l & Hidx & Hin).
    unfold getMessagesBySessionId. apply jsSort_elem_of, list_elem_of_omap.
    exists id. by rewrite Hidx.
Qed.

End Compose.

(** ** The scenarios of the specification, by evaluation *)

Example scenario_messages_in_order :
  let st := run newStorage two_messages in
  getMessagesBySessionId st "session_1000_k3x" =
    [mkMessage "msg_1100_aaa" "session_1000_k3x" "hello" 1100;
     mkMessage "msg_1200_bbb" "session_1000_k3x" "world" 1200] ∧
  cs_updatedAt <$> getChatSession st "session_1000_k3x" = Some 1200.
Proof. by vm_compute. Qed.

Example scenario_sessions_newest_first :
  getAllChatSessions (run newStorage two_sessions) "u1" =
    [mkChatSession "session_2000_p0q" "u1" "second" 2000 2000;
     mkChatSession "session_1000_k3x" "u1" "first" 1000 1000].
Proof. by vm_compute. Qed.

Example scenario_ties_in_creation_order :
  getAllChatSessions (run newStorage tied_sessions) "u1" =
    [mkChatSession "session_1000_k3x" "u1" "first" 1000 1000;
     mkChatSession "session_1000_p0q" "u1" "second" 1000 1000] ∧
  created tied_sessions "session_1000_k3x" = Some 0%nat ∧
  created tied_sessions "session_1000_p0q" = Some 1%nat.
Proof. by vm_compute. Qed.

Example scenario_delete_session :
  let st := deleteChatSession (run newStorage two_messages) "session_1000_k3x" in
  getChatSession st "session_1000_k3x" = None ∧
  getMessagesBySessionId st "session_1000_k3x" = [] ∧
  getAllChatSessions st "u1" = [] ∧
  messages st = ∅.
Proof. by vm_compute. Qed.

(** ** Instances of the theorems *)

Lemma upsertUser_spec_witness :
  getUser (newStorage : DemoStore) "u1" = None ∧
  user_createdAt
    (upsertUser (run newStorage two_sessions) 3000 (mkUpsertUser "u1" "Ann B.")).2 = 900.
Proof.
  split; [reflexivity|].
  pose proof (upsertUser_spec (newStorage : DemoStore) 900 (mkUpsertUser "u1" "Ann"))
    as (_ & _ & _ & _ & _ & _ & _ & Hfirst & _).
  exact (Hfirst eq_refl (tail two_sessions) 3000 (mkUpsertUser "u1" "Ann B.") eq_refl).
Defined.

Lemma createMessage_refreshes_session_witness :
  let st : DemoStore := run newStorage two_sessions in
  let d := mkInsertMessage "session_1000_k3x" "hello" in
  chatSessions st !! im_sessionId d
    = Some (mkChatSession "session_1000_k3x" "u1" "first" 1000 1000) ∧
  cs_updatedAt <$> getChatSession (createMessage st 2500 "aaa" 2500 d).1 (im_sessionId d)
    = Some (msg_timestamp (createMessage st 2500 "aaa" 2500 d).2).
Proof.
  intros st d.
  assert (chatSessions st !! im_sessionId d
          = Some (mkChatSession "session_1000_k3x" "u1" "first" 1000 1000)) as Hs
    by (vm_compute; reflexivity).
  split; [exact Hs|].
  exact (proj1 (proj2 (proj2 (createMessage_refreshes_session st 2500 "aaa" 2500 d _ Hs)))).
Defined.

Lemma delete_absent_noop_witness :
  let st : DemoStore := run newStorage two_messages in
  messages st !! "msg_9_zzz" = None ∧
  exec st (DeleteMessage "msg_9_zzz") = (st, RVoid).
Proof.
  intros st.
  assert (messages st !! "msg_9_zzz" = None) as Hm by (vm_compute; reflexivity).
  split; [exact Hm|].
  exact (proj1 (delete_absent_noop st "msg_9_zzz") Hm).
Defined.

Lemma createMessage_unknown_session_witness :
  let d := mkInsertMessage "s1" "hi" in
  chatSessions (newStorage : DemoStore) !! im_sessionId d = None ∧
  (createMessage (newStorage : DemoStore) 1000 "k3x" 1000 d).2
    ∈ getMessagesBySessionId
        (createMessage (newStorage : DemoStore) 1000 "k3x" 1000 d).1 "s1".
Proof.
  intros d. split; [reflexivity|].
  exact (proj1 (proj2 (proj2
    (createMessage_unknown_session (newStorage : DemoStore) 1000 "k3x" 1000 d eq_refl)))).
Defined.

Lemma deleteMessage_frame_witness :
  let st : DemoStore := run newStorage two_messages in
  let m := mkMessage "msg_1100_aaa" "session_1000_k3x" "hello" 1100 in
  messages st !! "msg_1100_aaa" = Some m ∧
  chatSessions (deleteMessage st "msg_1100_aaa") = chatSessions st.
Proof.
  intros st m.
  assert (messages st !! "msg_1100_aaa" = Some m) as Hm by (vm_compute; reflexivity).
  split; [exact Hm|].
  exact (proj1 (proj2 (deleteMessage_frame st "msg_1100_aaa" m Hm))).
Defined.

Lemma deleteChatSession_cascade_witness :
  let st : DemoStore := run newStorage two_messages in
  is_Some (chatSessions st !! "session_1000_k3x") ∧
  getMessagesBySessionId (deleteChatSession st "session_1000_k3x") "session_1000_k3x" = [].
Proof.
  intros st.
  assert (is_Some (chatSessions st !! "session_1000_k3x")) as Hs
    by (vm_compute; eexists; reflexivity).
  split; [exact Hs|].
  exact (proj1 (proj1 (proj2 (deleteChatSession_cascade st "session_1000_k3x")) Hs)).
Defined.

Lemma generated_ids_differ_witness :
  (1000, "k3x") ≠ (1000, "k3y") ∧
  cs_id (createChatSession (newStorage : DemoStore) 1000 "k3x" 1000
           (mkInsertChatSession "u1" "a")).2
  ≠ cs_id (createChatSession (newStorage : DemoStore) 1000 "k3y" 1000
             (mkInsertChatSession "u1" "a")).2.
Proof.
  assert ((1000, "k3x") ≠ (1000, "k3y")) as Hne by discriminate.
  split; [exact Hne|].
  exact (proj1 (generated_ids_differ (newStorage : DemoStore) newStorage
                  1000 "k3x" 1000 "k3y" Hne) 1000 1000 _ _).
Defined.

Lemma reachable_index_consistent_witness :
  let st : DemoStore := run newStorage two_messages in
  let m := mkMessage "msg_1200_bbb" "session_1000_k3x" "world" 1200 in
  messages st !! "msg_1200_bbb" = Some m ∧
  ∃ l, messagesBySession st !! msg_sessionId m = Some l ∧ msg_id m ∈ l.
Proof.
  intros st m.
  assert (messages st !! "msg_1200_bbb" = Some m) as Hm by (vm_compute; reflexivity).
  split; [exact Hm|].
  exact (proj2 (proj2 (reachable_index_consistent two_messages) "msg_1200_bbb" m Hm)).
Defined.

Lemma getAllChatSessions_spec_witness :
  fresh_run (newStorage : DemoStore) two_sessions = true ∧
  StronglySorted (λ a b, cs_updatedAt b ≤ cs_updatedAt a)
    (getAllChatSessions (run newStorage two_sessions) "u1").
Proof.
  assert (fresh_run (newStorage : DemoStore) two_sessions = true) as Hf
    by (vm_compute; reflexivity).
  split; [exact Hf|].
  exact (proj1 (proj2 (proj2 (getAllChatSessions_spec two_sessions Hf "u1")))).
Defined.

Lemma getMessagesBySessionId_spec_witness :
  fresh_run (newStorage : DemoStore) two_messages = true ∧
  StronglySorted (λ a b, msg_timestamp a ≤ msg_timestamp b)
    (getMessagesBySessionId (run newStorage two_messages) "session_1000_k3x").
Proof.
  assert (fresh_run (newStorage : DemoStore) two_messages = true) as Hf
    by (vm_compute; reflexivity).
  split; [exact Hf|].
  exact (proj1 (proj2 (proj2
    (getMessagesBySessionId_spec two_messages Hf "session_1000_k3x")))).
Defined.

(** ** Where the code departs from the specification's wording *)

(** C1 as stated fails: [deleteChatSession] does nothing when no session
    has the identifier, so messages created under that identifier are
    still listed afterwards. *)
Lemma deleteChatSession_absent_keeps_messages :
  let st : DemoStore := run newStorage orphan_message in
  getChatSession st "s1" = None ∧
  getMessagesBySessionId (deleteChatSession st "s1") "s1"
    = [mkMessage "msg_1000_k3x" "s1" "hi" 1000] ∧
  getMessagesBySessionId (deleteChatSession st "s1") "s1" ≠ [].
Proof. by vm_compute. Qed.

(** C3 as stated fails for [DatabaseStorage.createMessage]: the
    message's timestamp is the one the database assigned on insert, the
    session's [updatedAt] a [new Date()] read after the insert
    returned; here the database stamps the two messages at 1000 and
    2000 and the process reads 1003 and 2004. *)
Lemma DatabaseStorage_createMessage_two_readings :
  let r1 := DatabaseStorage_createMessage one_session_db "m1" 1000 1003
              (mkInsertMessage "s1" "hello") in
  let r2 := r1 ≫= λ p, DatabaseStorage_createMessage p.1 "m2" 2000 2004
                         (mkInsertMessage "s1" "world") in
  snd <$> r1 = Some (mkMessage "m1" "s1" "hello" 1000) ∧
  (r1 ≫= λ p, cs_updatedAt <$> DatabaseStorage_getChatSession p.1 "s1") = Some 1003 ∧
  snd <$> r2 = Some (mkMessage "m2" "s1" "world" 2000) ∧
  (r2 ≫= λ p, cs_updatedAt <$> DatabaseStorage_getChatSession p.1 "s1") = Some 2004 ∧
  (r2 ≫= λ p, cs_updatedAt <$> DatabaseStorage_getChatSession p.1 "s1")
    ≠ (msg_timestamp ∘ snd <$> r2).
Proof. by vm_compute. Qed.

(** C4 as stated fails: when two creations generate the same identifier
    the second session replaces the first in the session map, and the
    listing of the first user returns the second user's session. *)
Lemma getAllChatSessions_foreign_session :
  let st : DemoStore := run newStorage colliding_sessions in
  getAllChatSessions st "u1"
    = [mkChatSession "session_1000_k3x" "u2" "yours" 1000 1000] ∧
  ¬ (∀ s, s ∈ getAllChatSessions st "u1" → cs_userId s = "u1").
Proof.
  split; [by vm_compute|].
  intros Hall. specialize (Hall (mkChatSession "session_1000_k3x" "u2" "yours" 1000 1000)).
  assert ("u2" = "u1") as Heq; [|discriminate Heq].
  apply Hall. vm_compute. left.
Qed.

(** C5 as stated fails: messages are ordered by the clock reading of
    their creation, so the second of two messages comes first when the
    clock was set back in between; and a message that took the
    identifier of another session's message is listed for that
    session. *)
Lemma getMessagesBySessionId_out_of_order :
  (let st : DemoStore := run newStorage clock_set_back in
   getMessagesBySessionId st "session_1000_k3x"
     = [mkMessage "msg_1500_bbb" "session_1000_k3x" "world" 1500;
        mkMessage "msg_2000_aaa" "session_1000_k3x" "hello" 2000]) ∧
  (let st : DemoStore := run newStorage colliding_messages in
   getMessagesBySessionId st "s1" = [mkMessage "msg_1000_k3x" "s2" "yours" 1000]).
Proof. by vm_compute. Qed.

(** C6 as stated fails: two sessions, and two messages, created with
    the same clock reading and the same random suffix get the same
    identifier. *)
Lemma generated_ids_collide :
  let r1 := createChatSession (newStorage : DemoStore) 1000 "k3x" 1000
              (mkInsertChatSession "u1" "mine") in
  let r2 := createChatSession r1.1 1000 "k3x" 1000
              (mkInsertChatSession "u2" "yours") in
  let m1 := createMessage r2.1 1000 "k3x" 1000 (mkInsertMessage "s1" "mine") in
  let m2 := createMessage m1.1 1000 "k3x" 1000 (mkInsertMessage "s2" "yours") in
  r1.2 ≠ r2.2 ∧ cs_id r1.2 = cs_id r2.2 ∧
  m1.2 ≠ m2.2 ∧ msg_id m1.2 = msg_id m2.2.
Proof. by vm_compute. Qed.

(** ** Instances of the further properties *)

Lemma createChatSession_stores_witness :
  let r := createChatSession (newStorage : DemoStore) 1000 "k3x" 1000
             (mkInsertChatSession "nobody" "first") in
  getUser r.1 "nobody" = None ∧ getChatSession r.1 "session_1000_k3x" = Some r.2.
Proof.
  intros r. split; [reflexivity|].
  exact (proj1 (createChatSession_stores (newStorage : DemoStore) 1000 "k3x" 1000
                  (mkInsertChatSession "nobody" "first"))).
Defined.

Lemma deleteMessage_listing_witness :
  getMessagesBySessionId
    (deleteMessage (run (newStorage : DemoStore) two_messages) "msg_1100_aaa")
    "session_1000_k3x"
  = filter (λ m, msg_id m ≠ "msg_1100_aaa")
      (getMessagesBySessionId (run (newStorage : DemoStore) two_messages)
         "session_1000_k3x").
Proof. exact (deleteMessage_listing two_messages "msg_1100_aaa" "session_1000_k3x"). Defined.

Lemma reachable_index_exact_witness :
  fresh_run (newStorage : DemoStore) two_messages = true ∧
  NoDup ["msg_1100_aaa"; "msg_1200_bbb"].
Proof.
  assert (fresh_run (newStorage : DemoStore) two_messages = true) as Hf
    by (vm_compute; reflexivity).
  split; [exact Hf|].
  refine (proj1 (proj2 (reachable_index_exact two_messages Hf) "session_1000_k3x" _ _)).
  vm_compute. reflexivity.
Defined.

Lemma createMessage_listing_witness :
  let st : DemoStore := run newStorage two_messages in
  let d := mkInsertMessage "session_1000_k3x" "again" in
  fresh_run (newStorage : DemoStore) two_messages = true ∧
  messages st !! messageIdOf 1300 "ccc" = None ∧
  getMessagesBySessionId (createMessage st 1300 "ccc" 1300 d).1 "session_1000_k3x"
    ≡ₚ (createMessage st 1300 "ccc" 1300 d).2
         :: getMessagesBySessionId st "session_1000_k3x".
Proof.
  intros st d.
  assert (fresh_run (newStorage : DemoStore) two_messages = true) as Hf
    by (vm_compute; reflexivity).
  assert (messages st !! messageIdOf 1300 "ccc" = None) as Hid
    by (vm_compute; reflexivity).
  split_and!; [exact Hf | exact Hid |].
  exact (proj1 (proj2 (createMessage_listing two_messages 1300 "ccc" 1300 d Hf Hid))).
Defined.

Lemma createMessage_deleteMessage_witness :
  let st : DemoStore := run newStorage two_messages in
  let d := mkInsertMessage "session_1000_k3x" "again" in
  fresh_run (newStorage : DemoStore) two_messages = true ∧
  messages st !! messageIdOf 1300 "ccc" = None ∧
  messages (deleteMessage (createMessage st 1300 "ccc" 1300 d).1 (messageIdOf 1300 "ccc"))
    = messages st.
Proof.
  intros st d.
  assert (fresh_run (newStorage : DemoStore) two_messages = true) as Hf
    by (vm_compute; reflexivity).
  assert (messages st !! messageIdOf 1300 "ccc" = None) as Hid
    by (vm_compute; reflexivity).
  split_and!; [exact Hf | exact Hid |].
  exact (proj1 (createMessage_deleteMessage two_messages 1300 "ccc" 1300 d Hf Hid)).
Defined.

Lemma deleteChatSession_listings_witness :
  let st : DemoStore := run newStorage two_sessions in
  fresh_run (newStorage : DemoStore) two_sessions = true ∧
  getAllChatSessions (deleteChatSession st "session_1000_k3x") "u1"
    = filter (λ s, cs_id s ≠ "session_1000_k3x") (getAllChatSessions st "u1").
Proof.
  intros st.
  assert (fresh_run (newStorage : DemoStore) two_sessions = true) as Hf
    by (vm_compute; reflexivity).
  split; [exact Hf|].
  exact (proj1 (proj2 (deleteChatSession_listings two_sessions "session_1000_k3x" Hf)) "u1").
Defined.

Lemma createChatSession_listing_witness :
  let st : DemoStore := run newStorage two_sessions in
  let d := mkInsertChatSession "u1" "third" in
  fresh_run (newStorage : DemoStore) two_sessions = true ∧
  chatSessions st !! sessionIdOf 3000 "zzz" = None ∧
  getAllChatSessions (createChatSession st 3000 "zzz" 3000 d).1 "u2"
    = getAllChatSessions st "u2".
Proof.
  intros st d.
  assert (fresh_run (newStorage : DemoStore) two_sessions = true) as Hf
    by (vm_compute; reflexivity).
  assert (chatSessions st !! sessionIdOf 3000 "zzz" = None) as Hid
    by (vm_compute; reflexivity).
  split_and!; [exact Hf | exact Hid |].
  refine (proj1 (createChatSession_listing two_sessions 3000 "zzz" 3000 d Hf Hid) "u2" _).
  discriminate.
Defined.

Lemma createMessage_bumps_session_witness :
  let st : DemoStore := run newStorage two_sessions in
  let d := mkInsertMessage "session_1000_k3x" "hello" in
  let s := mkChatSession "session_1000_k3x" "u1" "first" 1000 1000 in
  fresh_run (newStorage : DemoStore) two_sessions = true ∧
  chatSessions st !! im_sessionId d = Some s ∧
  getAllChatSessions (createMessage st 2500 "aaa" 2500 d).1 "nobody"
    = getAllChatSessions st "nobody".
Proof.
  intros st d s.
  assert (fresh_run (newStorage : DemoStore) two_sessions = true) as Hf
    by (vm_compute; reflexivity).
  assert (chatSessions st !! im_sessionId d = Some s) as Hs
    by (vm_compute; reflexivity).
  split_and!; [exact Hf | exact Hs |].
  refine (proj1 (createMessage_bumps_session two_sessions 2500 "aaa" 2500 d s Hf Hs)
            "nobody" _).
  discriminate.
Defined.

Lemma getUser_run_witness :
  UpsertUserC 900 (mkUpsertUser "u1" "Ann") ∈ two_sessions ∧
  is_Some (getUser (run (newStorage : DemoStore) two_sessions) "u1").
Proof.
  assert (UpsertUserC 900 (mkUpsertUser "u1" "Ann") ∈ two_sessions) as Hin by left.
  split; [exact Hin|].
  apply (proj2 (proj1 (getUser_run two_sessions "u1"))).
  exists 900, (mkUpsertUser "u1" "Ann"). split; [exact Hin | reflexivity].
Defined.

Lemma stored_records_origin_witness :
  let st : DemoStore := run newStorage two_messages in
  let m := mkMessage "msg_1200_bbb" "session_1000_k3x" "world" 1200 in
  messages st !! "msg_1200_bbb" = Some m ∧
  ∃ t r now d, CreateMessage t r now d ∈ two_messages ∧ "msg_1200_bbb" = messageIdOf t r ∧
    m = mkMessage "msg_1200_bbb" (im_sessionId d) (im_body d) now.
Proof.
  intros st m.
  assert (messages st !! "msg_1200_bbb" = Some m) as Hm by (vm_compute; reflexivity).
  split; [exact Hm|].
  exact (proj2 (stored_records_origin two_messages) "msg_1200_bbb" m Hm).
Defined.

Lemma monotone_clock_timestamps_witness :
  let st : DemoStore := run newStorage two_messages in
  let s := mkChatSession "session_1000_k3x" "u1" "first" 1000 1200 in
  clock_monotone 0 two_messages = true ∧
  chatSessions st !! "session_1000_k3x" = Some s ∧
  cs_createdAt s ≤ cs_updatedAt s.
Proof.
  intros st s.
  assert (clock_monotone 0 two_messages = true) as Hc by (vm_compute; reflexivity).
  assert (chatSessions st !! "session_1000_k3x" = Some s) as Hs
    by (vm_compute; reflexivity).
  split_and!; [exact Hc | exact Hs |].
  exact (proj1 (proj2 (monotone_clock_timestamps 0 two_messages Hc))
           "session_1000_k3x" s Hs).
Defined.

Lemma listings_only_stored_witness :
  let st : DemoStore := run newStorage colliding_messages in
  mkMessage "msg_1000_k3x" "s2" "yours" 1000 ∈ getMessagesBySessionId st "s1" ∧
  ∃ id, id ∈ default [] (messagesBySession st !! "s1") ∧
        messages st !! id = Some (mkMessage "msg_1000_k3x" "s2" "yours" 1000).
Proof.
  intros st.
  assert (mkMessage "msg_1000_k3x" "s2" "yours" 1000 ∈ getMessagesBySessionId st "s1")
    as Hin by (vm_compute; left).
  split; [exact Hin|].
  exact (proj2 (proj2 (proj1 (listings_only_stored st) "s1")) _ Hin).
Defined.

Lemma stored_records_listed_witness :
  let st : DemoStore := run newStorage colliding_sessions in
  let s := mkChatSession "session_1000_k3x" "u2" "yours" 1000 1000 in
  chatSessions st !! "session_1000_k3x" = Some s ∧ s ∈ getAllChatSessions st "u2".
Proof.
  intros st s.
  assert (chatSessions st !! "session_1000_k3x" = Some s) as Hs
    by (vm_compute; reflexivity).
  split; [exact Hs|].
  exact (proj1 (stored_records_listed colliding_sessions) "session_1000_k3x" s Hs).
Defined.
